(** * Keypoints dataset pipeline of super-gradients: a shallow embedding

    Source: [super_gradients/training/datasets/pose_estimation_datasets/base_keypoints.py]
    ([BaseKeypointsDataset] and [KeypointsCollate]).

    Definitions:
    - [Py]: exceptions and the error monad used for fallible Python code;
    - [Numeric]: the interface of array elements (an ordered scalar type) and
      its [int64] instance;
    - [Keypoints]: samples, [filter_joints], [compute_area], the colour
      defaults of [__init__], [random.sample], [apply_transforms] and
      [__getitem__];
    - [Collate]: [KeypointsCollate.__call__];
    - [FilterSpec], [PipelineSpec], [CollateSpec]: the vocabulary in which the
      properties are stated;
    - [Instances]: concrete samples, transforms, datasets and batches.

    Properties:
    - [PyFacts], [NumericFacts], [MaskFacts], [RunFacts]: supporting lemmas;
    - [FilterFacts]: the out-of-bounds rule, the area rule, survivors and
      idempotence of [filter_joints];
    - [SamplingFacts], [PipelineFacts]: the indexes drawn, the state of the
      additional samples and termination of [apply_transforms];
    - [InitFacts]: the colour defaults;
    - [CollateFacts]: the extras of a batch;
    - [Examples]: the code run on the data of [Instances]. *)

From Stdlib Require Import ZArith Lia Bool.
From stdpp Require Import base option list gmap strings.

Set Default Proof Using "Type".
Set Warnings "-register-all".

(** ** Python exceptions and fallible results *)

Module Py.

Inductive exn : Set :=
  | ValueError
  | IndexError
  | KeyError
  | TypeError
  | NotImplementedError
  | OtherError (tag : nat).

Inductive result (A : Type) : Type :=
  | Ok (a : A)
  | Raise (e : exn).
Arguments Ok {A} a.
Arguments Raise {A} e.

Definition rbind {A B} (m : result A) (k : A -> result B) : result B :=
  match m with
  | Ok a => k a
  | Raise e => Raise e
  end.

#[global] Instance result_ret : MRet result := fun _ a => Ok a.
#[global] Instance result_bind : MBind result := fun _ _ k m => rbind m k.
#[global] Instance result_fmap : FMap result :=
  fun _ _ f m => rbind m (fun a => Ok (f a)).

(** [[f(x) for x in xs]] where [f] may raise: left to right, first error wins. *)
Fixpoint traverse {A B} (f : A -> result B) (xs : list A) : result (list B) :=
  match xs with
  | [] => Ok []
  | x :: xs' => b ← f x; bs ← traverse f xs'; Ok (b :: bs)
  end.

End Py.
Export Py.

(** ** Array elements

    The arrays of a sample ([joints], [areas], [bboxes]) hold numbers of one
    numpy dtype, floating-point as a rule.  The code only compares them,
    subtracts, multiplies and takes maxima and minima, so the development is
    carried out over any type with these operations.  The single law assumed
    is that zero is not greater than zero, which holds for integers and for
    IEEE numbers alike; no other property of the order or of the arithmetic
    is used.

    The concrete runs use [int64] arrays: the elements are the integers of
    [[-2^63, 2^63)] and subtraction and multiplication wrap around, as numpy
    does without warning. *)

Module Numeric.

Class Scalar (T : Type) : Type := {
  of_int : Z -> T;                (* a Python int promoted to the array type *)
  ltb : T -> T -> bool;           (* [a < b] *)
  leb : T -> T -> bool;           (* [a <= b] *)
  sub : T -> T -> T;
  mul : T -> T -> T;
  smax : T -> T -> T;             (* the pairwise step of [np.max] *)
  smin : T -> T -> T;             (* the pairwise step of [np.min] *)
  zero_not_positive : ltb (of_int 0) (of_int 0) = false
}.

Definition zero {T} `{Scalar T} : T := of_int 0.
Definition gtb {T} `{Scalar T} (a b : T) : bool := ltb b a.   (* [a > b] *)
Definition geb {T} `{Scalar T} (a b : T) : bool := leb b a.   (* [a >= b] *)

(** The value of an integer result once stored in 64 bits, two's complement. *)
Definition wrap64 (z : Z) : Z := ((z + 2 ^ 63) mod 2 ^ 64 - 2 ^ 63)%Z.

(** An [int64] element is within these bounds. *)
Definition int64 (z : Z) : Prop := (- 2 ^ 63 <= z < 2 ^ 63)%Z.

#[global, refine] Instance int64_scalar : Scalar Z := {|
  of_int := wrap64;
  ltb := Z.ltb;
  leb := Z.leb;
  sub := fun a b => wrap64 (a - b);
  mul := fun a b => wrap64 (a * b);
  smax := Z.max;
  smin := Z.min
|}.
Proof. reflexivity. Defined.

End Numeric.
Export Numeric.

(** ** The dataset *)

Module Keypoints.

Section Dataset.
Context {T : Type} `{Scalar T}.

(** *** Samples ([PoseEstimationSample]) *)

(** One entry [joints[i, j, :]]: coordinates and visibility flag. *)
Record Joint : Type := mkJoint { jx : T; jy : T; jvis : T }.

(** An image is either a [torch] tensor or a [numpy] array; only its shape
    is inspected by the code modelled here. *)
Record Image : Type := mkImage {
  is_tensor : bool;
  shape : nat * nat * nat;
  pixels : list T
}.

Inductive PoseEstimationSample : Type := mkSample {
  image : Image;
  mask : list (list T);
  joints : list (list Joint);            (* [Num Instances, Num Joints, 3] *)
  areas : option (list T);               (* [Num Instances] or None *)
  bboxes : option (list (T * T * T * T));(* [Num Instances, 4] or None *)
  is_crowd : list bool;                  (* [Num Instances] *)
  additional_samples : option (list PoseEstimationSample)
}.

(** *** numpy primitives used by the filter *)

(** [np.max(a, axis=-1)] / [np.min(a, axis=-1)] on one row: a reduction
    without identity, which raises on a row of length zero. *)
Definition np_reduce (f : T -> T -> T) (row : list T) : result T :=
  match row with
  | [] => Raise ValueError
  | x :: rest => Ok (foldl f x rest)
  end.

Definition reduce_last_axis (f : T -> T -> T) (a : list (list T)) : result (list T) :=
  traverse (np_reduce f) a.

(** [np.sum(mask, axis=-1)] on one row of booleans. *)
Fixpoint np_sum (row : list bool) : nat :=
  match row with
  | [] => 0
  | b :: rest => (if b then 1 else 0) + np_sum rest
  end.

(** [arr[mask]] for a boolean mask along the first axis: the mask must be as
    long as the array. *)
Fixpoint select {A} (m : list bool) (arr : list A) : list A :=
  match m, arr with
  | b :: m', a :: arr' => if b then a :: select m' arr' else select m' arr'
  | _, _ => []
  end.

Definition bool_index {A} (arr : list A) (m : list bool) : result (list A) :=
  if Nat.eqb (length m) (length arr) then Ok (select m arr) else Raise IndexError.

(** [keep &= other], in place: [other] is broadcast to the shape of [keep],
    which succeeds when it has the same length or length one. *)
Definition iand (keep other : list bool) : result (list bool) :=
  if Nat.eqb (length other) (length keep) then Ok (zip_with andb keep other)
  else match other with
       | [b] => Ok (map (fun k => k && b) keep)
       | _ => Raise ValueError
       end.

(** *** [compute_area] *)

Definition compute_area (joints : list (list Joint)) : result (list T) :=
  mx ← reduce_last_axis smax (map (map jx) joints);
  mn ← reduce_last_axis smin (map (map jx) joints);
  let w := zip_with sub mx mn in
  my ← reduce_last_axis smax (map (map jy) joints);
  ny ← reduce_last_axis smin (map (map jy) joints);
  let h := zip_with sub my ny in
  Ok (zip_with mul w h).

(** *** [filter_joints] *)

(** Lines 112-115: rows and columns of the frame. *)
Definition frame_size (im : Image) : nat * nat :=
  if is_tensor im
  then let '(_, rows, cols) := shape im in (rows, cols)
  else let '(rows, cols, _) := shape im in (rows, cols).

(** Line 118: one entry of [outside_image_mask]. *)
Definition outside_image (rows cols : nat) (j : Joint) : bool :=
  ltb (jx j) zero || ltb (jy j) zero
  || geb (jx j) (of_int (Z.of_nat cols)) || geb (jy j) (of_int (Z.of_nat rows)).

(** Line 119: [sample.joints[outside_image_mask, 2] = 0]. *)
Definition hide_joint (rows cols : nat) (j : Joint) : Joint :=
  if outside_image rows cols j then mkJoint (jx j) (jy j) zero else j.

Definition hide_outside (rows cols : nat) (joints : list (list Joint)) : list (list Joint) :=
  map (map (hide_joint rows cols)) joints.

(** Lines 122-123. *)
Definition visible_joints_mask (joints : list (list Joint)) : list (list bool) :=
  map (map (fun j => gtb (jvis j) zero)) joints.

(** Lines 126-133: the mask after the area test. *)
Definition area_mask (min_instance_area : T) (sample_areas : option (list T))
    (joints : list (list Joint)) (keep_mask : list bool) : result (list bool) :=
  if gtb min_instance_area zero then
    areas ← match sample_areas with
            | None => compute_area joints
            | Some a => Ok a
            end;
    let keep_area_mask := map (fun a => gtb a min_instance_area) areas in
    iand keep_mask keep_area_mask
  else Ok keep_mask.

Definition index_optional {A} (arr : option (list A)) (m : list bool)
    : result (option (list A)) :=
  match arr with
  | None => Ok None
  | Some a => Some <$> bool_index a m
  end.

Definition filter_joints (min_instance_area : T) (sample : PoseEstimationSample)
    : result PoseEstimationSample :=
  let '(rows, cols) := frame_size (image sample) in
  let joints1 := hide_outside rows cols (joints sample) in
  let keep_mask := map (fun row => Nat.ltb 0 (np_sum row)) (visible_joints_mask joints1) in
  keep_mask ← area_mask min_instance_area (areas sample) joints1 keep_mask;
  joints2 ← bool_index joints1 keep_mask;
  is_crowd2 ← bool_index (is_crowd sample) keep_mask;
  bboxes2 ← index_optional (bboxes sample) keep_mask;
  areas2 ← index_optional (areas sample) keep_mask;
  Ok (mkSample (image sample) (mask sample) joints2 areas2 bboxes2 is_crowd2
               (additional_samples sample)).


(** *** Effects of the pipeline

    [apply_transforms] draws indices from Python's global [random] module,
    loads samples and calls transforms that may themselves be randomised or
    raise.  [World] stands for the state these share (the generator state
    first of all).  A computation either returns a value and a new world,
    raises, needs a deeper recursion than the fuel allows, or is still
    redrawing in [random.sample] when the draws allowed are used up. *)

Context {World : Type}.

Inductive run (A : Type) : Type :=
  | Returns (a : A) (w : World)
  | Raises (e : exn)
  | OutOfFuel
  | OutOfDraws.
Arguments Returns {A} a w.
Arguments Raises {A} e.
Arguments OutOfFuel {A}.
Arguments OutOfDraws {A}.

Definition M (A : Type) : Type := World -> run A.

Definition ret {A} (a : A) : M A := fun w => Returns a w.

Definition bind {A B} (m : M A) (k : A -> M B) : M B :=
  fun w => match m w with
           | Returns a w' => k a w'
           | Raises e => Raises e
           | OutOfFuel => OutOfFuel
           | OutOfDraws => OutOfDraws
           end.

Definition raise {A} (e : exn) : M A := fun _ => Raises e.
Definition out_of_fuel {A} : M A := fun _ => OutOfFuel.
Definition out_of_draws {A} : M A := fun _ => OutOfDraws.

(** External code (the generator, the loader, a transform, the target
    generator) returns or raises; it is run inside the pipeline by [perform]. *)
Definition Ext (A : Type) : Type := World -> result (A * World).

Definition perform {A} (e : Ext A) : M A :=
  fun w => match e w with
           | Ok (a, w') => Returns a w'
           | Raise x => Raises x
           end.

Definition lift {A} (r : result A) : M A :=
  match r with
  | Ok a => ret a
  | Raise e => raise e
  end.

#[global] Instance M_ret : MRet M := @ret.
#[global] Instance M_bind : MBind M := fun _ _ k m => bind m k.

(** [[f(x) for x in xs]] with effects, left to right. *)
Fixpoint traverseM {A B} (f : A -> M B) (xs : list A) : M (list B) :=
  match xs with
  | [] => ret []
  | x :: xs' => b ← f x; bs ← traverseM f xs'; ret (b :: bs)
  end.

(** *** [random.sample(range(n), k)]

    The standard library's sampling without replacement ([Lib/random.py]).
    [ValueError] when [k] is negative or larger than the population.
    Otherwise one of two algorithms, chosen by comparing the population with
    [setsize]:
    - a small population is copied into a pool: round [i] picks position
      [j = randbelow(n - i)] of the pool, emits [pool[j]] and moves the last
      live entry into the vacancy;
    - a large population is indexed directly: each round draws
      [j = randbelow(n)] and draws again for as long as [j] is in the set
      of the positions selected so far.

    The second algorithm loops until the generator produces a fresh
    position.  [draws] bounds the draws of one such loop. *)

Variable randbelow : nat -> Ext nat.
Variable draws : nat.

(** The least [e] with [x <= 4 ^ e], for [_ceil(_log(x, 4))].  The code
    takes the logarithm in floating point, which gives this value for every
    [x] below [4 ^ 25]. *)
Fixpoint ceil_log4_from (fuel e p x : nat) : nat :=
  match fuel with
  | 0 => e
  | S fuel' => if x <=? p then e else ceil_log4_from fuel' (S e) (4 * p) x
  end.

Definition ceil_log4 (x : nat) : nat := ceil_log4_from x 0 1 x.

Definition setsize (k : nat) : nat :=
  if 5 <? k then 21 + 4 ^ ceil_log4 (k * 3) else 21.

Fixpoint pool_draw (k n : nat) (pool : list nat) : M (list nat) :=
  match k with
  | 0 => ret []
  | S k' =>
      j ← perform (randbelow n);
      match pool !! j, pool !! (n - 1) with
      | Some x, Some y =>
          rest ← pool_draw k' (n - 1) (<[j := y]> pool);
          ret (x :: rest)
      | _, _ => raise IndexError
      end
  end.

(** [j = randbelow(n); while j in selected: j = randbelow(n)] *)
Fixpoint redraw (tries n : nat) (selected : gset nat) : M nat :=
  match tries with
  | 0 => out_of_draws
  | S tries' =>
      j ← perform (randbelow n);
      if decide (j ∈ selected) then redraw tries' n selected else ret j
  end.

(** [population[j]] for [population = range(n)]. *)
Definition range_item (n j : nat) : M nat :=
  if j <? n then ret j else raise IndexError.

Fixpoint set_draw (k n : nat) (selected : gset nat) : M (list nat) :=
  match k with
  | 0 => ret []
  | S k' =>
      j ← redraw draws n selected;
      x ← range_item n j;
      rest ← set_draw k' n ({[j]} ∪ selected);
      ret (x :: rest)
  end.

Definition random_sample (n : nat) (k : Z) : M (list nat) :=
  if (0 <=? k)%Z && (k <=? Z.of_nat n)%Z then
    if n <=? setsize (Z.to_nat k)
    then pool_draw (Z.to_nat k) n (seq 0 n)
    else set_draw (Z.to_nat k) n ∅
  else raise ValueError.

(** *** Transforms and the dataset object *)

Record KeypointTransform : Type := mkTransform {
  additional_samples_count : Z;
  call : PoseEstimationSample -> Ext PoseEstimationSample
}.

Definition Color : Type := (Z * Z * Z)%type.

(** A colour argument of [__init__]:
    [Union[List[Tuple[int, int, int]], np.ndarray, None]]. *)
Inductive Colors : Type :=
  | ColorsNone
  | ColorsList (l : list Color)
  | ColorsArray (a : list Color).      (* an array of shape [n, 3] *)

Context {Targets : Type}.

Record BaseKeypointsDataset : Type := mkDataset {
  target_generator : PoseEstimationSample -> Ext Targets;
  transforms : list KeypointTransform;
  min_instance_area : T;
  num_joints : Z;
  edge_links : list (nat * nat);
  edge_colors : Colors;
  keypoint_colors : Colors;
  (* the two abstract methods, supplied by the concrete dataset *)
  len : nat;
  load_sample : nat -> Ext PoseEstimationSample
}.

(** *** [__init__] *)

(** [generate_color_mapping] of [training/utils/visualization/utils.py]. *)
Variable generate_color_mapping : Z -> list Color.

(** Python truth value of a colour argument.  An array with more than one
    element has no truth value; an array of [n >= 1] colours has [3 * n]. *)
Definition truth (c : Colors) : result bool :=
  match c with
  | ColorsNone => Ok false
  | ColorsList l => Ok (negb (Nat.eqb (length l) 0))
  | ColorsArray a => if Nat.eqb (length a) 0 then Ok false else Raise ValueError
  end.

(** [c or generate_color_mapping(count)]: the right operand is evaluated only
    when the left one is falsy. *)
Definition or_generated (c : Colors) (count : Z) : result Colors :=
  b ← truth c;
  Ok (if b : bool then c else ColorsList (generate_color_mapping count)).

Definition init
    (target_generator : PoseEstimationSample -> Ext Targets)
    (transforms : list KeypointTransform)
    (min_instance_area : T) (num_joints : Z)
    (edge_links : list (nat * nat)) (edge_colors keypoint_colors : Colors)
    (len : nat) (load_sample : nat -> Ext PoseEstimationSample)
    : result BaseKeypointsDataset :=
  ec ← or_generated edge_colors (Z.of_nat (length edge_links));
  kc ← or_generated keypoint_colors num_joints;
  Ok (mkDataset target_generator transforms min_instance_area num_joints
                edge_links ec kc len load_sample).

(** *** [apply_transforms] *)

Section Pipeline.
Variable self : BaseKeypointsDataset.

(** The state of the [for] loop: the current sample and
    [applied_transforms_so_far]. *)
Definition loop_state : Type := (PoseEstimationSample * list KeypointTransform)%type.

Definition set_additional_samples (s : PoseEstimationSample)
    (l : list PoseEstimationSample) : PoseEstimationSample :=
  mkSample (image s) (mask s) (joints s) (areas s) (bboxes s) (is_crowd s) (Some l).

(** Lines 89-91: load the auxiliary samples, bring them through
    [applied] by the recursive call [rec], attach them. *)
Definition attach_additional
    (rec : PoseEstimationSample -> list KeypointTransform -> M PoseEstimationSample)
    (t : KeypointTransform) (st : loop_state) : M PoseEstimationSample :=
  let '(sample, applied) := st in
  indexes ← random_sample (len self) (additional_samples_count t);
  additional ← traverseM (fun index => perform (load_sample self index)) indexes;
  additional ← traverseM (fun s => rec s applied) additional;
  ret (set_additional_samples sample additional).

(** Lines 85-92: one iteration. *)
Definition loop_body
    (rec : PoseEstimationSample -> list KeypointTransform -> M PoseEstimationSample)
    (st : loop_state) (t : KeypointTransform) : M loop_state :=
  if (additional_samples_count t =? 0)%Z then
    sample ← perform (call t (fst st));
    ret (sample, snd st ++ [t])
  else
    sample ← attach_additional rec t st;
    sample ← perform (call t sample);
    ret (sample, snd st).

Fixpoint for_each
    (rec : PoseEstimationSample -> list KeypointTransform -> M PoseEstimationSample)
    (ts : list KeypointTransform) (st : loop_state) : M loop_state :=
  match ts with
  | [] => ret st
  | t :: ts' => st' ← loop_body rec st t; for_each rec ts' st'
  end.

(** [fuel] bounds the depth of nested calls of [apply_transforms]. *)
Fixpoint apply_transforms (fuel : nat) (sample : PoseEstimationSample)
    (transforms : list KeypointTransform) : M PoseEstimationSample :=
  match fuel with
  | 0 => out_of_fuel
  | S fuel' =>
      st ← for_each (apply_transforms fuel') transforms (sample, []);
      ret (fst st)
  end.

(** *** [__getitem__] *)

Inductive Extra : Type :=
  | GtJoints (a : list (list Joint))
  | GtBBoxes (a : option (list (T * T * T * T)))
  | GtAreas (a : option (list T))
  | GtIsCrowd (a : list bool).

Definition getitem (fuel : nat) (index : nat)
    : M (Image * Targets * gmap string Extra) :=
  sample ← perform (load_sample self index);
  sample ← apply_transforms fuel sample (transforms self);
  sample ← lift (filter_joints (min_instance_area self) sample);
  targets ← perform (target_generator self sample);
  ret (image sample, targets,
       <["gt_joints" := GtJoints (joints sample)]>
       (<["gt_bboxes" := GtBBoxes (bboxes sample)]>
       (<["gt_areas" := GtAreas (areas sample)]>
       (<["gt_is_crowd" := GtIsCrowd (is_crowd sample)]> ∅)))).

End Pipeline.
End Dataset.

Arguments run : clear implicits.
Arguments M : clear implicits.
Arguments Ext : clear implicits.
Arguments Returns {World A} a w.
Arguments Raises {World A} e.
Arguments OutOfFuel {World A}.
Arguments OutOfDraws {World A}.
Arguments KeypointTransform : clear implicits.
Arguments BaseKeypointsDataset : clear implicits.

End Keypoints.

(** ** The collate function *)

Module Collate.

Section Collate.
Context {Image Target V Images Targets : Type}.

(** [torch]'s [default_collate], at the type of images and of targets: it
    stacks same-shaped elements and raises otherwise. *)
Variable default_collate_images : list Image -> result Images.
Variable default_collate_targets : list Target -> result Targets.

(** [dic[k]]. *)
Definition getitem_key (k : string) (dic : gmap string V) : result V :=
  match dic !! k with
  | Some v => Ok v
  | None => Raise KeyError
  end.

(** Line 174: [{k: [dic[k] for dic in extras] for k in extras[0]}]; [item_of]
    is the entry [k: [dic[k] for dic in extras]] for one key.  The keys
    of [extras[0]] are visited in the map's enumeration order; the only
    exception the comprehension can raise is [KeyError], whatever the order. *)
Definition item_of (extras : list (gmap string V)) (k : string)
    : result (string * list V) :=
  column ← traverse (getitem_key k) extras; Ok (k, column).

Definition transpose (extras : list (gmap string V)) : result (gmap string (list V)) :=
  match extras with
  | [] => Raise IndexError
  | first :: _ =>
      items ← traverse (item_of extras) (map_to_list first).*1;
      Ok (list_to_map items)
  end.

Definition KeypointsCollate_call (batch : list (Image * Target * gmap string V))
    : result (Images * Targets * gmap string (list V)) :=
  let images := map (fun b => fst (fst b)) batch in
  let targets := map (fun b => snd (fst b)) batch in
  let extras := map snd batch in
  extras ← transpose extras;
  images ← default_collate_images images;
  targets ← default_collate_targets targets;
  Ok (images, targets, extras).

End Collate.
End Collate.

(** ** Vocabulary of the specification

    Predicates and reference functions in which the properties below are
    stated.  They follow the wording of the specification, not the code. *)

Module FilterSpec.
Import Keypoints.

Section Spec.
Context {T : Type} `{Scalar T}.
Implicit Types (s : @PoseEstimationSample T) (j : @Joint T).
Implicit Types (row : list (@Joint T)) (J : list (list (@Joint T))) (t : T).

(** The presence test of one joint and of one instance, in the words of the
    specification: [any(joints[i, :, 2] > 0)]. *)
Definition joint_present j : bool := gtb (jvis j) zero.
Definition row_visible row : bool := existsb joint_present row.

(** The area of an instance in the words of the specification:
    [(max_x - min_x) * (max_y - min_y)] over all its joints. *)
Definition bbox_area row : result T :=
  match row with
  | [] => Raise ValueError
  | j :: rest =>
      let max_x := foldl smax (jx j) (map jx rest) in
      let min_x := foldl smin (jx j) (map jx rest) in
      let max_y := foldl smax (jy j) (map jy rest) in
      let min_y := foldl smin (jy j) (map jy rest) in
      Ok (mul (sub max_x min_x) (sub max_y min_y))
  end.

(** The areas the filter compares with the threshold. *)
Definition used_areas (sample_areas : option (list T)) J : result (list T) :=
  match sample_areas with
  | None => compute_area J
  | Some a => Ok a
  end.

(** The joints on which the presence test runs. *)
Definition hidden_joints s : list (list Joint) :=
  hide_outside (fst (frame_size (image s))) (snd (frame_size (image s))) (joints s).

(** The shape invariant of the data model: one entry per instance in every
    per-instance array, and at least one joint per instance. *)
Definition well_shaped s : Prop :=
  length (is_crowd s) = length (joints s)
  /\ (forall a, areas s = Some a -> length a = length (joints s))
  /\ (forall b, bboxes s = Some b -> length b = length (joints s))
  /\ Forall (fun row => row <> []) (joints s).

(** The out-of-bounds rule in the words of the specification: [x < 0],
    [x >= width], [y < 0] or [y >= height]. *)
Definition out_of_frame (height width : nat) j : Prop :=
  ltb (jx j) zero = true \/ geb (jx j) (of_int (Z.of_nat width)) = true
  \/ ltb (jy j) zero = true \/ geb (jy j) (of_int (Z.of_nat height)) = true.

(** Height and width of an image: a tensor is channel-first, an array is
    channel-last. *)
Definition has_frame (im : @Image T) (height width : nat) : Prop :=
  if is_tensor im
  then exists c, shape im = (c, height, width)
  else exists c, shape im = (height, width, c).

End Spec.

(** [int64] coordinates of absolute value at most [b], and the area of an
    instance as an integer, computed without wrap-around. *)
Definition coordinates_within (b : Z) (row : list (@Joint Z)) : Prop :=
  Forall (fun j => (- b <= jx j <= b)%Z /\ (- b <= jy j <= b)%Z) row.

Definition exact_area (row : list (@Joint Z)) : Z :=
  match row with
  | [] => 0
  | j :: rest =>
      ((foldl Z.max (jx j) (map jx rest) - foldl Z.min (jx j) (map jx rest))
       * (foldl Z.max (jy j) (map jy rest) - foldl Z.min (jy j) (map jy rest)))%Z
  end.

End FilterSpec.

Module PipelineSpec.
Import Keypoints.

Section Sampling.
Context {World : Type}.
Variable randbelow : nat -> Ext World nat.

(** What [Random._randbelow(m)] guarantees for a positive [m]: it returns an
    integer in [[0, m)]. *)
Definition randbelow_in_range : Prop :=
  forall m w, 0 < m -> exists j w', randbelow m w = Ok (j, w') /\ j < m.

(** [v] is among the next [m + 1] values of [randbelow n]. *)
Fixpoint comes_up (m n v : nat) (w : World) : Prop :=
  match randbelow n w with
  | Ok (j, w') => j = v \/ match m with 0 => False | S m' => comes_up m' n v w' end
  | Raise _ => False
  end.

(** The generator avoids no value for ever: from every state on, every
    value below [n] is produced by [randbelow n] sooner or later. *)
Definition every_value_comes_up : Prop :=
  forall n v w, v < n -> exists m, comes_up m n v w.

(** A computation that has come to an end, by returning or by raising. *)
Definition terminated {A} (r : run World A) : Prop :=
  match r with
  | Returns _ _ | Raises _ => True
  | OutOfFuel | OutOfDraws => False
  end.

(** A computation that depends on the number of draws allowed does so only
    by running out of them: once it ends otherwise, more draws change
    nothing. *)
Definition steady {A} (f : nat -> M World A) : Prop :=
  forall d d' w, d <= d' -> f d w <> OutOfDraws -> f d' w = f d w.

End Sampling.

Section Transforms.
Context {T World : Type}.

Local Abbreviation Sample := (@PoseEstimationSample T).
Local Abbreviation Transform := (KeypointTransform T World).
Local Abbreviation Rec := (Sample -> list Transform -> M World Sample).

Implicit Types (s : Sample) (t : Transform) (ts : list Transform).

(** A transform that needs no additional samples. *)
Definition plain t : bool := (additional_samples_count t =? 0)%Z.

(** The plain transforms of a list, in order. *)
Fixpoint plain_only ts : list Transform :=
  match ts with
  | [] => []
  | t :: ts' => if plain t then t :: plain_only ts' else plain_only ts'
  end.

(** Calling the transforms of a list one after the other on a sample, and
    nothing else. *)
Fixpoint run_in_order ts s : M World Sample :=
  match ts with
  | [] => ret s
  | t :: ts' => s' ← perform (call t s); run_in_order ts' s'
  end.

(** The recursive call when every transform it is given is plain. *)
Definition flat : Rec := fun s applied => run_in_order applied s.

End Transforms.
End PipelineSpec.

Module CollateSpec.

Section Spec.
Context {V : Type}.
Implicit Types (extras : list (gmap string V)) (k : string) (col : list V).

(** [col] is the list of the values under [k], one per dict, in order. *)
Definition column_of k extras col : Prop :=
  Forall2 (fun d v => d !! k = Some v) extras col.

End Spec.
End CollateSpec.

(** ** Sample data

    Concrete samples, transforms, datasets and batches on which the code is
    run in the examples at the end of the file. *)

Module Instances.
Import Keypoints Collate.
Local Open Scope Z_scope.

Definition J (x y v : Z) : @Joint Z := mkJoint x y v.
Definition frame100 : @Image Z := mkImage false (100, 100, 3)%nat [].

(** Three instances in a 100 x 100 image: one with every joint at (150, 150),
    one spanning 8 x 8, one spanning 20 x 20. *)
Definition three_instances : @PoseEstimationSample Z :=
  mkSample frame100 []
    [ [J 150 150 2; J 150 150 2; J 150 150 2];
      [J 0 0 2; J 8 8 2];
      [J 0 0 2; J 20 20 1] ]
    None
    (Some [(150, 150, 0, 0); (0, 0, 8, 8); (0, 0, 20, 20)])
    [false; false; true]
    None.

Definition large_instance : @PoseEstimationSample Z :=
  mkSample frame100 [] [ [J 0 0 2; J 20 20 1] ] None (Some [(0, 0, 20, 20)]) [true] None.

(** One instance, out of the frame, in a channel-first tensor image. *)
Definition out_of_frame_instance : @PoseEstimationSample Z :=
  mkSample (mkImage true (3, 100, 100)%nat []) []
    [ [J 150 150 2; J 150 150 2; J 150 150 2] ]
    (Some [0]) (Some [(150, 150, 0, 0)]) [false] None.

(** The generator state is a counter; [randbelow n] returns it modulo [n]. *)
Definition counter_randbelow : nat -> Ext nat nat :=
  fun n w => Ok (Nat.modulo w n, S w).

(** A generator that returns every value twice in a row. *)
Definition stutter_randbelow : nat -> Ext nat nat :=
  fun n w => Ok (Nat.modulo (Nat.div w 2) n, S w).

(** A generator that returns 0 for ever. *)
Definition stuck_randbelow : nat -> Ext nat nat :=
  fun n w => Ok (0%nat, S w).

(** Sample [i] is one pixel of value [i + 1]. *)
Definition pixel_sample (p : Z) : @PoseEstimationSample Z :=
  mkSample (mkImage false (100, 100, 3)%nat [p]) [] [] None None [] None.

Definition load_pixel (i : nat) : Ext nat (@PoseEstimationSample Z) :=
  fun w => Ok (pixel_sample (Z.of_nat i + 1), w).

Definition with_pixels (s : @PoseEstimationSample Z) (p : list Z)
    (additional : option (list (@PoseEstimationSample Z))) : @PoseEstimationSample Z :=
  mkSample (mkImage (is_tensor (image s)) (shape (image s)) p)
           (mask s) (joints s) (areas s) (bboxes s) (is_crowd s) additional.

(** A plain transform: add 10 to every pixel. *)
Definition brighten : KeypointTransform Z nat :=
  mkTransform 0 (fun s w =>
    Ok (with_pixels s (map (Z.add 10) (pixels (image s))) (additional_samples s), w)).

Definition first_additional_pixels (s : @PoseEstimationSample Z) : list Z :=
  match additional_samples s with
  | Some (a :: _) => pixels (image a)
  | _ => []
  end.

(** A combining transform: add the first additional sample to the primary
    one, pixel by pixel, and drop the additional samples. *)
Definition mix (count : Z) : KeypointTransform Z nat :=
  mkTransform count (fun s w =>
    Ok (with_pixels s (zip_with Z.add (pixels (image s)) (first_additional_pixels s)) None, w)).

Definition five_samples (ts : list (KeypointTransform Z nat))
    : BaseKeypointsDataset Z nat unit :=
  mkDataset (fun _ w => Ok (tt, w)) ts 0 17 [(0, 1)%nat] ColorsNone ColorsNone
            5%nat load_pixel.

Definition mix_brighten_mix : list (KeypointTransform Z nat) := [mix 1; brighten; mix 1].


Definition grey_mapping (count : Z) : list Color :=
  repeat (128, 128, 128) (Z.to_nat count).

Definition extras_a : gmap string (list nat) :=
  <["gt_joints" := [1; 2]%nat]> (<["gt_areas" := [10; 20]%nat]> ∅).
Definition extras_b : gmap string (list nat) :=
  <["gt_joints" := [3]%nat]> (<["gt_areas" := [30]%nat]> ∅).
(** No [gt_joints], and a key of its own. *)
Definition extras_c : gmap string (list nat) :=
  <["gt_areas" := [40]%nat]> (<["image_id" := [7]%nat]> ∅).
Definition extras_d : gmap string (list nat) := <["gt_areas" := [50]%nat]> ∅.

(** A stand-in for [default_collate]: the list of the elements. *)
Definition stack {A} (l : list A) : result (list A) := Ok l.

Definition batch_ab : list (nat * nat * gmap string (list nat)) :=
  [(1, 1, extras_a); (2, 2, extras_b)]%nat.
Definition batch_ac : list (nat * nat * gmap string (list nat)) :=
  [(1, 1, extras_a); (3, 3, extras_c)]%nat.
Definition batch_dc : list (nat * nat * gmap string (list nat)) :=
  [(4, 4, extras_d); (3, 3, extras_c)]%nat.

End Instances.

Module MoreInstances.
Import Keypoints Collate Instances.
Local Open Scope Z_scope.

(** What is left of [three_instances] with the threshold 50. *)
Definition two_instances : @PoseEstimationSample Z :=
  mkSample frame100 []
    [ [J 0 0 2; J 8 8 2]; [J 0 0 2; J 20 20 1] ]
    None (Some [(0, 0, 8, 8); (0, 0, 20, 20)]) [false; true] None.

(** One instance and no [is_crowd] flag. *)
Definition missing_crowd_flag : @PoseEstimationSample Z :=
  mkSample frame100 [] [ [J 1 1 2] ] None None [] None.

(** One instance spanning 4 000 000 000 x 4 000 000 000. *)
Definition huge_instance : list (list (@Joint Z)) :=
  [ [J 0 0 2; J 4000000000 4000000000 2] ].

(** Two instances, the second without joints. *)
Definition rows_with_empty : list (list (@Joint Z)) := [ [J 1 1 2]; [] ].

(** The extras of a sample without instances. *)
Definition no_instance_extras : gmap string (@Extra Z) :=
  <["gt_joints" := GtJoints []]>
  (<["gt_bboxes" := GtBBoxes None]>
  (<["gt_areas" := GtAreas None]>
  (<["gt_is_crowd" := GtIsCrowd []]> ∅))).

(** The extras of [batch_ab] after collation. *)
Definition extras_ab : gmap string (list (list nat)) :=
  <["gt_joints" := [[1; 2]; [3]]%nat]> (<["gt_areas" := [[10; 20]; [30]]%nat]> ∅).

(** A stand-in for [default_collate] that rejects everything. *)
Definition reject {A} (l : list A) : result (list A) := Raise TypeError.

End MoreInstances.

(** * Properties *)

(** ** The error monad *)

Module PyFacts.

Lemma rbind_ok {A B} (m : result A) (k : A -> result B) b :
  m ≫= k = Ok b <-> exists a, m = Ok a /\ k a = Ok b.
Proof.
  destruct m as [a|e]; cbn; split.
  - eauto.
  - intros (a' & [= <-] & Hk); exact Hk.
  - discriminate.
  - intros (a' & Hm & _); discriminate.
Qed.

Lemma traverse_ok_length {A B} (f : A -> result B) xs ys :
  traverse f xs = Ok ys -> length ys = length xs.
Proof.
  revert ys; induction xs as [|x xs IH]; intros ys; cbn.
  - intros [= <-]; reflexivity.
  - intros (b & Hb & (bs & Hbs & [= <-])%rbind_ok)%rbind_ok.
    cbn; f_equal; eauto.
Qed.

Lemma traverse_ok_lookup {A B} (f : A -> result B) xs ys i x :
  traverse f xs = Ok ys -> xs !! i = Some x ->
  exists y, ys !! i = Some y /\ f x = Ok y.
Proof.
  revert ys i; induction xs as [|x0 xs IH]; intros ys i; cbn; [done|].
  intros (b & Hb & (bs & Hbs & [= <-])%rbind_ok)%rbind_ok Hi.
  destruct i as [|i]; cbn in *.
  - injection Hi as <-; eauto.
  - eauto.
Qed.

Lemma traverse_raise_inv {A B} (f : A -> result B) xs e :
  traverse f xs = Raise e -> exists x, x ∈ xs /\ f x = Raise e.
Proof.
  induction xs as [|x xs IH]; cbn; [discriminate|].
  destruct (f x) as [b|e'] eqn:Hx; cbn.
  - destruct (traverse f xs) as [bs|e'']; cbn; [discriminate|].
    intros [= <-]. destruct IH as (y & Hy & Hfy); [reflexivity|].
    exists y; split; [apply elem_of_cons; by right | done].
  - intros [= <-]. exists x; split; [apply elem_of_cons; by left | done].
Qed.

End PyFacts.
Import PyFacts.

(** ** Integer coordinates

    For [int64] arrays the reductions of [compute_area] are the greatest and
    the least coordinate of the row, and a result within the 64 bits is
    stored as it is. *)

Module NumericFacts.

Lemma wrap64_small z : int64 z -> wrap64 z = z.
Proof.
  unfold int64, wrap64.
  change (2 ^ 63)%Z with 9223372036854775808%Z.
  change (2 ^ 64)%Z with 18446744073709551616%Z.
  intros Hz. rewrite Z.mod_small; lia.
Qed.

Lemma foldl_max_upper (l : list Z) : forall x,
  (x <= foldl Z.max x l)%Z /\ Forall (fun y => (y <= foldl Z.max x l)%Z) l.
Proof.
  induction l as [|y l IH]; intros x; cbn; [split; [lia | constructor]|].
  destruct (IH (Z.max x y)) as [Hx Hl]. split; [lia|].
  constructor; [lia | exact Hl].
Qed.

Lemma foldl_min_lower (l : list Z) : forall x,
  (foldl Z.min x l <= x)%Z /\ Forall (fun y => (foldl Z.min x l <= y)%Z) l.
Proof.
  induction l as [|y l IH]; intros x; cbn; [split; [lia | constructor]|].
  destruct (IH (Z.min x y)) as [Hx Hl]. split; [lia|].
  constructor; [lia | exact Hl].
Qed.

Lemma foldl_max_member (l : list Z) : forall x, foldl Z.max x l ∈ x :: l.
Proof.
  induction l as [|y l IH]; intros x; cbn; [apply elem_of_cons; by left|].
  specialize (IH (Z.max x y)). apply elem_of_cons in IH as [->|IH].
  - destruct (Z.max_spec x y) as [[_ ->]|[_ ->]];
      [apply elem_of_cons; right; apply elem_of_cons; by left
      | apply elem_of_cons; by left].
  - apply elem_of_cons; right. apply elem_of_cons; by right.
Qed.

Lemma foldl_min_member (l : list Z) : forall x, foldl Z.min x l ∈ x :: l.
Proof.
  induction l as [|y l IH]; intros x; cbn; [apply elem_of_cons; by left|].
  specialize (IH (Z.min x y)). apply elem_of_cons in IH as [->|IH].
  - destruct (Z.min_spec x y) as [[_ ->]|[_ ->]];
      [apply elem_of_cons; by left
      | apply elem_of_cons; right; apply elem_of_cons; by left].
  - apply elem_of_cons; right. apply elem_of_cons; by right.
Qed.

End NumericFacts.

(** ** Boolean masks *)

Module MaskFacts.
Import Keypoints.

Section Select.
Context {A B : Type}.
Implicit Types (m : list bool) (l : list A).

Lemma select_all_true m l :
  Forall (eq true) m -> length m = length l -> select m l = l.
Proof.
  intros Hm; revert l; induction Hm as [|b m <- _ IH]; intros [|a l]; cbn; try done.
  intros [= Hlen]; f_equal; auto.
Qed.

Lemma select_map (g : A -> B) m l : select m (map g l) = map g (select m l).
Proof.
  revert l; induction m as [|b m IH]; intros [|a l]; cbn; try done.
  destruct b; cbn; by rewrite IH.
Qed.

Lemma select_length m l (l' : list B) :
  length m = length l -> length m = length l' ->
  length (select m l) = length (select m l').
Proof.
  revert l l'; induction m as [|b m IH]; intros [|a l] [|a' l']; cbn; try done.
  intros [= H1] [= H2]; destruct b; cbn; auto.
Qed.

Lemma select_Forall2 (P : bool -> A -> Prop) (Q : A -> Prop) m l :
  Forall2 (fun b a => b = true -> Q a) m l -> Forall Q (select m l).
Proof.
  induction 1 as [|b a m l Hba _ IH]; cbn; [constructor|].
  destruct b; [constructor; auto | done].
Qed.

Lemma elem_of_select m l a : a ∈ select m l -> a ∈ l.
Proof.
  revert l; induction m as [|b m IH]; intros [|a0 l]; cbn;
    try (by intros ?%elem_of_nil).
  destruct b; rewrite ?elem_of_cons; intuition auto.
Qed.

End Select.

Lemma bool_index_ok {A} (arr : list A) m r :
  bool_index arr m = Ok r <-> length m = length arr /\ r = select m arr.
Proof.
  unfold bool_index. destruct (Nat.eqb_spec (length m) (length arr)); split.
  - intros [= <-]; done.
  - intros [_ ->]; done.
  - discriminate.
  - intros [? _]; done.
Qed.

Lemma index_optional_ok {A} (arr : option (list A)) m r :
  index_optional arr m = Ok r <->
  r = select m <$> arr /\ (forall a, arr = Some a -> length m = length a).
Proof.
  destruct arr as [a|]; cbn.
  - unfold bool_index. destruct (Nat.eqb_spec (length m) (length a)); cbn; split.
    + intros [= <-]; split; [done|]. by intros ? [= <-].
    + intros [-> _]; done.
    + discriminate.
    + intros [_ Hl]; specialize (Hl a eq_refl); done.
  - split; [intros [= <-]; done | intros [-> _]; done].
Qed.

(** A mask that implies another selects only true entries of it. *)
Lemma select_implied m m' :
  Forall2 (fun b b' => b = true -> b' = true) m m' -> Forall (eq true) (select m m').
Proof.
  intros Hmm. apply (select_Forall2 (fun _ _ => True)).
  eapply Forall2_impl; [exact Hmm|]. cbn; intros ?? Hi Hb; symmetry; auto.
Qed.

Lemma and_implies_left m m' :
  length m = length m' ->
  Forall2 (fun b b' => b = true -> b' = true) (zip_with andb m m') m.
Proof.
  revert m'; induction m as [|b m IH]; intros [|b' m']; cbn; try done.
  intros [= Hl]. constructor; [by intros [? _]%andb_true_iff | auto].
Qed.

Lemma and_implies_right m m' :
  length m = length m' ->
  Forall2 (fun b b' => b = true -> b' = true) (zip_with andb m m') m'.
Proof.
  revert m'; induction m as [|b m IH]; intros [|b' m']; cbn; try done.
  intros [= Hl]. constructor; [by intros [_ ?]%andb_true_iff | auto].
Qed.

Lemma zip_and_all_true m m' :
  Forall (eq true) m -> Forall (eq true) m' -> length m = length m' ->
  zip_with andb m m' = m.
Proof.
  intros Hm; revert m'; induction Hm as [|b m <- _ IH]; intros m' Hm' Hl.
  - done.
  - destruct Hm' as [|b' m' <- Hm']; [done|]. cbn in *. f_equal; auto.
Qed.

Lemma iand_same_length keep other :
  length other = length keep -> iand keep other = Ok (zip_with andb keep other).
Proof. intros Hl. unfold iand. by rewrite Hl, Nat.eqb_refl. Qed.

Lemma iand_length keep other r : iand keep other = Ok r -> length r = length keep.
Proof.
  unfold iand. destruct (Nat.eqb_spec (length other) (length keep)) as [Hl|Hl].
  - intros [= <-]. rewrite length_zip_with. lia.
  - destruct other as [|b [|? ?]]; try discriminate.
    intros [= <-]. by rewrite length_map.
Qed.

End MaskFacts.

(** ** [filter_joints] and [compute_area] *)

Module FilterFacts.
Import Keypoints MaskFacts FilterSpec.

Section Facts.
Context {T : Type} `{Scalar T}.
Implicit Types (s : @PoseEstimationSample T) (j : @Joint T).
Implicit Types (row : list (@Joint T)) (J : list (list (@Joint T))) (t : T).

(** *** Counting and presence *)

Lemma np_sum_positive (l : list bool) : Nat.ltb 0 (np_sum l) = existsb id l.
Proof.
  induction l as [|b l IH]; [done|].
  destruct b; [done | exact IH].
Qed.

Lemma keep_mask_visible J :
  map (fun r => Nat.ltb 0 (np_sum r)) (visible_joints_mask J) = map row_visible J.
Proof.
  unfold visible_joints_mask. rewrite map_map. apply map_ext; intros row.
  rewrite np_sum_positive. unfold row_visible.
  induction row as [|j row IH]; cbn; [done|]. by rewrite IH.
Qed.

Lemma row_visible_true row :
  row_visible row = true <-> exists j, j ∈ row /\ gtb (jvis j) zero = true.
Proof.
  unfold row_visible. rewrite existsb_exists. split.
  - intros (j & Hin%list_elem_of_In & Hj); eauto.
  - intros (j & Hin%list_elem_of_In & Hj); eauto.
Qed.

(** *** Hiding joints outside the frame *)

Lemma hide_joint_xy rows cols j :
  jx (hide_joint rows cols j) = jx j /\ jy (hide_joint rows cols j) = jy j.
Proof. unfold hide_joint. by destruct (outside_image rows cols j). Qed.

Lemma outside_hide_joint rows cols j :
  outside_image rows cols (hide_joint rows cols j) = outside_image rows cols j.
Proof.
  unfold outside_image. by destruct (hide_joint_xy rows cols j) as [-> ->].
Qed.

Lemma hide_joint_outside rows cols j :
  outside_image rows cols j = true -> jvis (hide_joint rows cols j) = zero.
Proof. unfold hide_joint. by intros ->. Qed.

Lemma hide_joint_inside rows cols j :
  outside_image rows cols j = false -> hide_joint rows cols j = j.
Proof. unfold hide_joint. by intros ->. Qed.

Lemma hide_joint_idem rows cols j :
  hide_joint rows cols (hide_joint rows cols j) = hide_joint rows cols j.
Proof.
  unfold hide_joint at 1. rewrite outside_hide_joint.
  destruct (outside_image rows cols j) eqn:Ho; [|done].
  unfold hide_joint. by rewrite Ho.
Qed.

Lemma hide_outside_idem rows cols J :
  hide_outside rows cols (hide_outside rows cols J) = hide_outside rows cols J.
Proof.
  unfold hide_outside. rewrite map_map. apply map_ext; intros row.
  rewrite map_map. apply map_ext; intros j. apply hide_joint_idem.
Qed.

Lemma hide_outside_select rows cols m J :
  hide_outside rows cols (select m J) = select m (hide_outside rows cols J).
Proof. unfold hide_outside. by rewrite select_map. Qed.

(** *** Areas *)

Lemma compute_area_rows J : compute_area J = traverse bbox_area J.
Proof.
  induction J as [|row J IH]; [done|].
  cbn [traverse]. rewrite <- IH. clear IH.
  unfold compute_area, reduce_last_axis.
  destruct row as [|j rest]; [done|]. cbn.
  destruct (traverse (np_reduce smax) (map (map jx) J)); cbn; [|done].
  destruct (traverse (np_reduce smin) (map (map jx) J)); cbn; [|done].
  destruct (traverse (np_reduce smax) (map (map jy) J)); cbn; [|done].
  destruct (traverse (np_reduce smin) (map (map jy) J)); cbn; done.
Qed.

Lemma bbox_area_hide rows cols row :
  bbox_area (map (hide_joint rows cols) row) = bbox_area row.
Proof.
  destruct row as [|j rest]; [done|]. cbn.
  destruct (hide_joint_xy rows cols j) as [-> ->].
  rewrite !map_map.
  rewrite (map_ext (fun x => jx (hide_joint rows cols x)) jx)
    by (intros; apply hide_joint_xy).
  rewrite (map_ext (fun x => jy (hide_joint rows cols x)) jy)
    by (intros; apply hide_joint_xy).
  done.
Qed.

(** The area derived from the joints does not depend on the visibility
    correction. *)
Lemma compute_area_hide rows cols J :
  compute_area (hide_outside rows cols J) = compute_area J.
Proof.
  rewrite !compute_area_rows. unfold hide_outside.
  induction J as [|row J IH]; [done|].
  cbn [map traverse]. by rewrite bbox_area_hide, IH.
Qed.

Lemma compute_area_length J ar : compute_area J = Ok ar -> length ar = length J.
Proof. rewrite compute_area_rows. apply traverse_ok_length. Qed.

Lemma traverse_select {A B} (f : A -> result B) (m : list bool) l r :
  traverse f l = Ok r -> traverse f (select m l) = Ok (select m r).
Proof.
  revert l r; induction m as [|b m IH]; intros [|a l] r; cbn; try done.
  - intros [= <-]; done.
  - intros (y & Hy & (ys & Hys & [= <-])%rbind_ok)%rbind_ok.
    destruct b; cbn; [rewrite Hy; cbn; erewrite IH by done; done | eauto].
Qed.

(** *** The keep mask *)

Lemma area_mask_inv t a J keep0 keep :
  area_mask t a J keep0 = Ok keep ->
  (gtb t zero = false /\ keep = keep0) \/
  (gtb t zero = true /\
   exists ar, used_areas a J = Ok ar
              /\ iand keep0 (map (fun x => gtb x t) ar) = Ok keep).
Proof.
  unfold area_mask. destruct (gtb t zero).
  - intros (ar & Har & Hand)%rbind_ok. right; eauto.
  - intros [= <-]. by left.
Qed.

Lemma area_mask_length t a J keep0 keep :
  area_mask t a J keep0 = Ok keep -> length keep = length keep0.
Proof.
  intros [[_ ->]|(_ & ar & _ & Hand)]%area_mask_inv; [done|].
  by apply iand_length in Hand.
Qed.

(** *** What [filter_joints] returns *)

Lemma filter_joints_ok t s s1 :
  filter_joints t s = Ok s1 <->
  exists keep,
    area_mask t (areas s) (hidden_joints s) (map row_visible (hidden_joints s)) = Ok keep
    /\ length keep = length (is_crowd s)
    /\ (forall a, areas s = Some a -> length keep = length a)
    /\ (forall b, bboxes s = Some b -> length keep = length b)
    /\ s1 = mkSample (image s) (mask s) (select keep (hidden_joints s))
                     (select keep <$> areas s) (select keep <$> bboxes s)
                     (select keep (is_crowd s)) (additional_samples s).
Proof.
  unfold filter_joints, hidden_joints.
  destruct (frame_size (image s)) as [rows cols]; cbn [fst snd].
  rewrite keep_mask_visible. split.
  - intros (keep & Hkeep & (j2 & [Hl ->]%bool_index_ok
      & (c2 & [Hc ->]%bool_index_ok
      & (b2 & [-> Hb]%index_optional_ok
      & (a2 & [-> Ha]%index_optional_ok & [= <-])%rbind_ok)%rbind_ok)%rbind_ok)%rbind_ok)%rbind_ok.
    exists keep; repeat split; auto.
  - intros (keep & Hkeep & Hc & Ha & Hb & ->).
    rewrite Hkeep; cbn.
    assert (Hl : length keep = length (hide_outside rows cols (joints s))).
    { apply area_mask_length in Hkeep. by rewrite Hkeep, length_map. }
    rewrite (proj2 (bool_index_ok _ _ _) (conj Hl eq_refl)); cbn.
    rewrite (proj2 (bool_index_ok _ _ _) (conj Hc eq_refl)); cbn.
    rewrite (proj2 (index_optional_ok _ _ _) (conj eq_refl Hb)); cbn.
    rewrite (proj2 (index_optional_ok _ _ _) (conj eq_refl Ha)); cbn.
    done.
Qed.

Lemma area_mask_implies t a J keep0 keep :
  area_mask t a J keep0 = Ok keep ->
  Forall2 (fun b b' => b = true -> b' = true) keep keep0.
Proof.
  intros [[_ ->]|(_ & ar & _ & Hand)]%area_mask_inv.
  - apply Forall_Forall2_diag, Forall_forall; auto.
  - revert Hand. unfold iand.
    destruct (Nat.eqb_spec (length (map (fun x => gtb x t) ar)) (length keep0)).
    + intros [= <-]. by apply and_implies_left.
    + destruct (map (fun x => gtb x t) ar) as [|b [|??]]; try discriminate.
      intros [= <-]. clear. induction keep0 as [|k keep0 IH]; cbn; constructor; auto.
      by intros [? _]%andb_true_iff.
Qed.

(** Once the filter has gone through, the areas it compared have one entry
    per instance and the mask is the conjunction of the two tests. *)
Lemma area_mask_conjunction t a J keep :
  area_mask t a J (map row_visible J) = Ok keep ->
  (forall x, a = Some x -> length keep = length x) ->
  gtb t zero = true ->
  exists ar, used_areas a J = Ok ar /\ length ar = length J
             /\ keep = zip_with andb (map row_visible J) (map (fun x => gtb x t) ar).
Proof.
  intros Hmask Ha Ht.
  pose proof (area_mask_length _ _ _ _ _ Hmask) as Hlen. rewrite length_map in Hlen.
  destruct (area_mask_inv _ _ _ _ _ Hmask) as [[Hf _]|(_ & ar & Har & Hand)]; [congruence|].
  assert (Hlar : length ar = length J).
  { destruct a as [x|]; cbn in Har.
    - injection Har as <-. rewrite <- (Ha x eq_refl). done.
    - by apply compute_area_length. }
  exists ar; repeat split; [done..|].
  rewrite iand_same_length in Hand by (by rewrite !length_map). congruence.
Qed.

Lemma area_mask_stable t a J keep :
  area_mask t a J (map row_visible J) = Ok keep ->
  (forall x, a = Some x -> length keep = length x) ->
  Forall (eq true) (map row_visible (select keep J))
  /\ area_mask t (select keep <$> a) (select keep J) (map row_visible (select keep J))
     = Ok (map row_visible (select keep J)).
Proof.
  intros Hmask Ha.
  pose proof (area_mask_length _ _ _ _ _ Hmask) as Hlen. rewrite length_map in Hlen.
  assert (Hvis : Forall (eq true) (map row_visible (select keep J))).
  { rewrite <- select_map. apply select_implied. by eapply area_mask_implies. }
  split; [done|].
  unfold area_mask. destruct (gtb t zero) eqn:Ht; [|done].
  destruct (area_mask_conjunction _ _ _ _ Hmask Ha Ht) as (ar & Har & Hlar & Hkeep).
  assert (Har' : used_areas (select keep <$> a) (select keep J) = Ok (select keep ar)).
  { destruct a as [x|]; cbn in *.
    - by injection Har as <-.
    - rewrite compute_area_rows in *. by apply traverse_select. }
  unfold used_areas in Har'. rewrite Har'. cbn.
  rewrite iand_same_length.
  - f_equal. apply zip_and_all_true; [done| |].
    + rewrite <- select_map. apply select_implied.
      rewrite Hkeep at 1. apply and_implies_right. by rewrite !length_map.
    + rewrite !length_map. apply select_length; congruence.
  - rewrite !length_map. apply select_length; congruence.
Qed.

Lemma hidden_joints_length s : length (hidden_joints s) = length (joints s).
Proof. unfold hidden_joints, hide_outside. by rewrite length_map. Qed.

Lemma bbox_area_total J :
  Forall (fun row => row <> []) J -> exists ar, traverse bbox_area J = Ok ar.
Proof.
  induction 1 as [|row J Hrow _ [ar IH]]; [by exists []|].
  destruct row as [|j rest]; [done|]. cbn. rewrite IH. cbn. eauto.
Qed.

Lemma filter_joints_total t s : well_shaped s -> exists s1, filter_joints t s = Ok s1.
Proof.
  intros (Hc & Ha & Hb & Hrows).
  assert (exists keep, area_mask t (areas s) (hidden_joints s)
                           (map row_visible (hidden_joints s)) = Ok keep) as [keep Hkeep].
  { unfold area_mask. destruct (gtb t zero); [|eauto].
    assert (exists ar, used_areas (areas s) (hidden_joints s) = Ok ar
                       /\ length ar = length (joints s)) as (ar & Har & Hlar).
    { destruct (areas s) as [a|] eqn:Hareas; cbn; [eauto|].
      unfold hidden_joints. rewrite compute_area_hide.
      destruct (bbox_area_total _ Hrows) as [ar Har].
      exists ar. rewrite compute_area_rows. split; [done|].
      by apply traverse_ok_length in Har. }
    unfold used_areas in Har. rewrite Har. cbn.
    rewrite iand_same_length; [eauto|].
    by rewrite !length_map, hidden_joints_length. }
  pose proof (area_mask_length _ _ _ _ _ Hkeep) as Hlen.
  rewrite length_map, hidden_joints_length in Hlen.
  eexists. apply filter_joints_ok. exists keep.
  split; [done|]. split; [congruence|].
  split; [intros a Hs; rewrite (Ha a Hs); done|].
  split; [intros b Hs; rewrite (Hb b Hs); done|]. reflexivity.
Qed.

(** *** Idempotence *)

Lemma hidden_joints_filtered s keep :
  hidden_joints (mkSample (image s) (mask s) (select keep (hidden_joints s))
                          (select keep <$> areas s) (select keep <$> bboxes s)
                          (select keep (is_crowd s)) (additional_samples s))
  = select keep (hidden_joints s).
Proof.
  unfold hidden_joints; cbn [image joints].
  by rewrite hide_outside_select, hide_outside_idem.
Qed.

(** C3: [filter_joints] is idempotent.  Whenever the filter returns a sample,
    filtering that sample again with the same threshold returns it unchanged
    (same joints, is_crowd, bboxes and areas, and every other field). *)
Theorem filter_joints_idempotent t s s1 :
  filter_joints t s = Ok s1 -> filter_joints t s1 = Ok s1.
Proof.
  intros (keep & Hmask & Hc & Ha & Hb & ->)%filter_joints_ok.
  pose proof (area_mask_length _ _ _ _ _ Hmask) as Hlen. rewrite length_map in Hlen.
  destruct (area_mask_stable _ _ _ _ Hmask Ha) as [Hall Hmask'].
  apply filter_joints_ok. rewrite hidden_joints_filtered.
  set (J2 := select keep (hidden_joints s)) in *.
  exists (map row_visible J2). cbn [areas bboxes is_crowd image mask additional_samples].
  assert (Hsel : forall {A} (l : list A), length keep = length l ->
                   length (map row_visible J2) = length (select keep l)).
  { intros A l Hl. rewrite length_map. unfold J2. by apply select_length. }
  split; [exact Hmask'|].
  split; [by apply Hsel|].
  split; [destruct (areas s) as [a|]; cbn; [intros ? [= <-]; apply Hsel; auto | done]|].
  split; [destruct (bboxes s) as [b|]; cbn; [intros ? [= <-]; apply Hsel; auto | done]|].
  f_equal.
  - symmetry. apply select_all_true; [done | by rewrite length_map].
  - destruct (areas s) as [a|]; cbn; [|done]. f_equal. symmetry.
    apply select_all_true; [done | apply Hsel; auto].
  - destruct (bboxes s) as [b|]; cbn; [|done]. f_equal. symmetry.
    apply select_all_true; [done | apply Hsel; auto].
  - symmetry. apply select_all_true; [done | by apply Hsel].
Qed.

(** *** Survivors *)

Lemma Forall2_map_r_inv {A B C} (P : C -> B -> Prop) (f : A -> B) l k :
  Forall2 P l (map f k) -> Forall2 (fun x y => P x (f y)) l k.
Proof.
  revert l; induction k as [|y k IH]; intros l Hl; inversion Hl; subst;
    constructor; auto.
Qed.

Lemma keep_implies_visible t s keep :
  area_mask t (areas s) (hidden_joints s) (map row_visible (hidden_joints s)) = Ok keep ->
  Forall2 (fun b row => b = true -> row_visible row = true) keep (hidden_joints s).
Proof. intros Hmask%area_mask_implies. by apply Forall2_map_r_inv in Hmask. Qed.

Lemma select_nil_length {A B} (m : list bool) (l : list A) (l' : list B) :
  length m = length l -> length m = length l' -> select m l = [] -> select m l' = [].
Proof.
  intros Hl Hl' Hnil. apply length_zero_iff_nil.
  rewrite (select_length m l' l Hl' Hl), Hnil. done.
Qed.

(** C6: after [filter_joints] returns, every surviving instance has at least
    one joint with visibility > 0.  On a well-shaped sample the filter always
    returns, and when no instance survives every per-instance array of the
    result is empty. *)
Theorem filter_joints_survivors t s :
  (forall s1, filter_joints t s = Ok s1 ->
     Forall (fun row => exists j, j ∈ row /\ gtb (jvis j) zero = true) (joints s1))
  /\ (well_shaped s ->
      exists s1, filter_joints t s = Ok s1
        /\ (joints s1 = [] ->
            is_crowd s1 = []
            /\ (forall a, areas s1 = Some a -> a = [])
            /\ (forall b, bboxes s1 = Some b -> b = []))).
Proof.
  split.
  - intros s1 (keep & Hmask & _ & _ & _ & ->)%filter_joints_ok. cbn [joints].
    apply (select_Forall2 (fun _ _ => True)).
    eapply Forall2_impl; [by eapply keep_implies_visible|].
    cbn. intros b row Hb Htrue. by apply row_visible_true, Hb.
  - intros Hws. destruct (filter_joints_total t s Hws) as [s1 Hs1].
    exists s1. split; [done|].
    apply filter_joints_ok in Hs1 as (keep & Hmask & Hc & Ha & Hb & ->).
    pose proof (area_mask_length _ _ _ _ _ Hmask) as Hlen. rewrite length_map in Hlen.
    cbn [joints is_crowd areas bboxes]. intros Hnil. repeat split.
    + eapply select_nil_length; [exact Hlen | exact Hc | exact Hnil].
    + destruct (areas s) as [a|]; cbn; [|done]. intros ? [= <-].
      eapply select_nil_length; [exact Hlen | by apply Ha | exact Hnil].
    + destruct (bboxes s) as [b|]; cbn; [|done]. intros ? [= <-].
      eapply select_nil_length; [exact Hlen | by apply Hb | exact Hnil].
Qed.

(** *** Joints outside the frame *)

Lemma has_frame_size (im : @Image T) height width :
  has_frame im height width -> frame_size im = (height, width).
Proof.
  unfold has_frame, frame_size. destruct (is_tensor im); intros [c ->]; done.
Qed.

Lemma outside_image_spec rows cols j :
  outside_image rows cols j = true <-> out_of_frame rows cols j.
Proof.
  unfold outside_image, out_of_frame. rewrite !orb_true_iff. tauto.
Qed.

Lemma hide_joint_spec rows cols j :
  jx (hide_joint rows cols j) = jx j /\ jy (hide_joint rows cols j) = jy j
  /\ (out_of_frame rows cols j -> jvis (hide_joint rows cols j) = zero)
  /\ (~ out_of_frame rows cols j -> jvis (hide_joint rows cols j) = jvis j).
Proof.
  destruct (hide_joint_xy rows cols j) as [Hx Hy]. repeat split; [done..| |].
  - intros Ho%outside_image_spec. by apply hide_joint_outside.
  - intros Ho. rewrite hide_joint_inside; [done|].
    destruct (outside_image rows cols j) eqn:E; [|done].
    by apply outside_image_spec in E.
Qed.

Lemma hidden_joint_not_present rows cols j :
  out_of_frame rows cols j -> joint_present (hide_joint rows cols j) = false.
Proof.
  intros Ho%outside_image_spec. unfold joint_present.
  rewrite hide_joint_outside by done. unfold gtb, zero. apply zero_not_positive.
Qed.

Lemma hide_outside_related rows cols J :
  Forall2 (Forall2 (fun j j' =>
             jx j' = jx j /\ jy j' = jy j
             /\ (out_of_frame rows cols j -> jvis j' = zero)
             /\ (~ out_of_frame rows cols j -> jvis j' = jvis j)))
          J (hide_outside rows cols J).
Proof.
  unfold hide_outside.
  induction J as [|row J IH]; cbn; constructor; [|exact IH].
  clear. induction row as [|j row IH]; cbn; constructor; [|exact IH].
  apply hide_joint_spec.
Qed.

Lemma hidden_row_not_visible rows cols row :
  Forall (out_of_frame rows cols) row ->
  row_visible (map (hide_joint rows cols) row) = false.
Proof.
  unfold row_visible. induction 1 as [|j row Hj _ IH]; cbn; [done|].
  by rewrite hidden_joint_not_present, IH.
Qed.

Lemma hidden_row_visible rows cols row j :
  j ∈ row -> ~ out_of_frame rows cols j -> gtb (jvis j) zero = true ->
  row_visible (map (hide_joint rows cols) row) = true.
Proof.
  intros Hin Hout Hvis. apply row_visible_true. exists j. split; [|done].
  replace j with (hide_joint rows cols j) at 1.
  - apply list_elem_of_In, in_map, list_elem_of_In, Hin.
  - apply hide_joint_inside.
    destruct (outside_image rows cols j) eqn:E; [|done].
    by apply outside_image_spec in E.
Qed.

Lemma lookup_and_masks {A B} (f : A -> bool) (g : B -> bool) l k i x y :
  l !! i = Some x -> k !! i = Some y ->
  zip_with andb (map f l) (map g k) !! i = Some (f x && g y).
Proof.
  revert k i; induction l as [|x0 l IH]; intros [|y0 k] [|i]; cbn; try done.
  - by intros [= ->] [= ->].
  - apply IH.
Qed.

(** C5: every joint outside [[0, width) x [0, height)] has its visibility set
    to 0 before the presence test, whatever its original visibility; width
    and height are read off the image in channel-first layout for a tensor
    and channel-last layout for an array.  Whenever [filter_joints] returns,
    there are the corrected joints: the input joints with x and y as they were,
    visibility 0 where the joint is out of frame and the original visibility
    elsewhere.  The presence test is evaluated on them: the keep mask is their
    visibility mask (combined with the area test when the threshold is
    positive), so an instance whose joints are all out of frame is dropped
    even when they are labelled visible, and, the area test apart, an
    instance with a visible joint inside the frame is kept.  The joints
    returned are the corrected joints of the instances kept: every
    out-of-frame joint returned has visibility 0. *)
Theorem out_of_frame_joints_hidden t s s1 height width :
  has_frame (image s) height width ->
  filter_joints t s = Ok s1 ->
  exists corrected keep,
    Forall2 (Forall2 (fun j j' =>
               jx j' = jx j /\ jy j' = jy j
               /\ (out_of_frame height width j -> jvis j' = zero)
               /\ (~ out_of_frame height width j -> jvis j' = jvis j)))
            (joints s) corrected
    /\ length keep = length (joints s)
    /\ (gtb t zero = false -> keep = map row_visible corrected)
    /\ (gtb t zero = true ->
        exists ar, length ar = length (joints s)
          /\ keep = zip_with andb (map row_visible corrected)
                                  (map (fun a => gtb a t) ar))
    /\ (forall i row, joints s !! i = Some row ->
          Forall (out_of_frame height width) row -> keep !! i = Some false)
    /\ (gtb t zero = false ->
        forall i row j, joints s !! i = Some row -> j ∈ row ->
          ~ out_of_frame height width j -> gtb (jvis j) zero = true ->
          keep !! i = Some true)
    /\ joints s1 = select keep corrected
    /\ Forall (fun row => forall j, j ∈ row ->
                 out_of_frame height width j -> jvis j = zero)
              (joints s1).
Proof.
  intros Hframe%has_frame_size (keep & Hmask & _ & Ha & _ & ->)%filter_joints_ok.
  unfold hidden_joints in *. rewrite Hframe in *. cbn [fst snd joints] in *.
  set (corrected := hide_outside height width (joints s)) in *.
  pose proof (area_mask_length _ _ _ _ _ Hmask) as Hlen.
  rewrite length_map in Hlen.
  assert (Hclen : length corrected = length (joints s))
    by (unfold corrected, hide_outside; by rewrite length_map).
  assert (Hrow : forall i row, joints s !! i = Some row ->
            corrected !! i = Some (map (hide_joint height width) row)).
  { intros i row Hi. unfold corrected, hide_outside.
    by rewrite list_lookup_fmap, Hi. }
  assert (Hnot : gtb t zero = false -> keep = map row_visible corrected).
  { intros Ht. destruct (area_mask_inv _ _ _ _ _ Hmask) as [[_ ->]|[Ht' _]]; congruence. }
  assert (Hpos : gtb t zero = true ->
            exists ar, length ar = length (joints s)
              /\ keep = zip_with andb (map row_visible corrected)
                                      (map (fun a => gtb a t) ar)).
  { intros Ht.
    destruct (area_mask_conjunction _ _ _ _ Hmask Ha Ht) as (ar & _ & Hlar & Hkeep).
    exists ar. split; [congruence | done]. }
  exists corrected, keep.
  split; [apply hide_outside_related|]. split; [congruence|].
  split; [exact Hnot|]. split; [exact Hpos|]. split; [|split; [|split; [done|]]].
  - intros i row Hi Hall. specialize (Hrow i row Hi).
    destruct (gtb t zero) eqn:Ht.
    + destruct (Hpos eq_refl) as (ar & Hlar & ->).
      destruct (lookup_lt_is_Some_2 ar i) as [a Hai].
      { rewrite Hlar. by eapply lookup_lt_Some. }
      rewrite (lookup_and_masks row_visible (fun x => gtb x t) _ _ _ _ _ Hrow Hai).
      by rewrite hidden_row_not_visible.
    + rewrite (Hnot eq_refl), list_lookup_fmap, Hrow. cbn.
      by rewrite hidden_row_not_visible.
  - intros Ht i row j Hi Hin Hout Hvis. specialize (Hrow i row Hi).
    rewrite (Hnot Ht), list_lookup_fmap, Hrow. cbn.
    by rewrite (hidden_row_visible _ _ _ j).
  - apply Forall_forall. intros row Hsel%elem_of_select.
    unfold corrected, hide_outside in Hsel.
    apply list_elem_of_In, in_map_iff in Hsel as (row0 & <- & _).
    intros j (j0 & <- & _)%list_elem_of_In%in_map_iff Hout.
    apply hide_joint_outside, outside_image_spec.
    unfold out_of_frame in *.
    destruct (hide_joint_xy height width j0) as [Hx Hy]. by rewrite Hx, Hy in Hout.
Qed.

(** *** The area rule *)

(** C2: the area criterion of [filter_joints].  With a threshold [t > 0],
    instance [i] is kept iff it is visible and its area [a] satisfies
    [a > t]; the area is the entry of the sample's [areas] when that field is
    present, and otherwise [(max_x - min_x) * (max_y - min_y)] over all joints
    of the instance as they were passed in, whatever their visibility.  With a
    threshold that is not positive, [t = 0] in particular, the mask is the
    visibility mask alone. *)
Theorem area_rule t s s1 :
  filter_joints t s = Ok s1 ->
  exists keep,
    joints s1 = select keep (hidden_joints s)
    /\ is_crowd s1 = select keep (is_crowd s)
    /\ areas s1 = (select keep <$> areas s)
    /\ bboxes s1 = (select keep <$> bboxes s)
    /\ length keep = length (joints s)
    /\ (gtb t zero = true ->
        exists ar,
          match areas s with
          | Some a => ar = a
          | None => traverse bbox_area (joints s) = Ok ar
          end
          /\ length ar = length (joints s)
          /\ forall i row a, hidden_joints s !! i = Some row -> ar !! i = Some a ->
                keep !! i = Some (row_visible row && gtb a t))
    /\ (gtb t zero = false -> keep = map row_visible (hidden_joints s))
    /\ (t = zero -> keep = map row_visible (hidden_joints s)).
Proof.
  intros (keep & Hmask & Hc & Ha & Hb & ->)%filter_joints_ok.
  pose proof (area_mask_length _ _ _ _ _ Hmask) as Hlen.
  rewrite length_map, hidden_joints_length in Hlen.
  exists keep. cbn [joints is_crowd areas bboxes].
  do 5 (split; [done|]).
  assert (Hnot : gtb t zero = false -> keep = map row_visible (hidden_joints s)).
  { intros Ht. destruct (area_mask_inv _ _ _ _ _ Hmask) as [[_ ->]|[Ht' _]]; congruence. }
  split; [|split; [exact Hnot|]].
  - intros Ht.
    destruct (area_mask_conjunction _ _ _ _ Hmask Ha Ht) as (ar & Har & Hlar & ->).
    exists ar. split; [|split].
    + destruct (areas s) as [a|]; cbn in Har; [congruence|].
      unfold hidden_joints in Har.
      by rewrite compute_area_hide, compute_area_rows in Har.
    + by rewrite Hlar, hidden_joints_length.
    + intros i row a Hrow Hai.
      apply (lookup_and_masks row_visible (fun x => gtb x t)); done.
  - intros ->. apply Hnot. unfold gtb, zero. apply zero_not_positive.
Qed.

End Facts.
End FilterFacts.

(** ** The pipeline monad *)

Module RunFacts.
Import Keypoints PipelineSpec.

Section Run.
Context {World : Type}.
Implicit Types w : World.

Lemma bind_returns {A B} (m : M World A) (k : A -> M World B) w a w' :
  m w = Returns a w' -> (m ≫= k) w = k a w'.
Proof. intros Hm. unfold mbind, M_bind, bind. by rewrite Hm. Qed.

Lemma bind_raises {A B} (m : M World A) (k : A -> M World B) w e :
  m w = Raises e -> (m ≫= k) w = Raises e.
Proof. intros Hm. unfold mbind, M_bind, bind. by rewrite Hm. Qed.

Lemma bind_inv {A B} (m : M World A) (k : A -> M World B) w b w' :
  (m ≫= k) w = Returns b w' ->
  exists a w1, m w = Returns a w1 /\ k a w1 = Returns b w'.
Proof. unfold mbind, M_bind, bind. destruct (m w); [eauto | done..]. Qed.

Lemma bind_ext {A B} (m m' : M World A) (k k' : A -> M World B) w :
  m w = m' w -> (forall a w1, k a w1 = k' a w1) -> (m ≫= k) w = (m' ≫= k') w.
Proof.
  intros Hm Hk. unfold mbind, M_bind, bind. rewrite Hm. destruct (m' w); auto.
Qed.

Lemma perform_ok {A} (e : Ext World A) w a w' :
  e w = Ok (a, w') -> perform e w = Returns a w'.
Proof. intros He. unfold perform. by rewrite He. Qed.

Lemma perform_terminates {A} (e : Ext World A) w : perform e w <> OutOfFuel.
Proof. unfold perform. by destruct (e w) as [[a w']|x]. Qed.

Lemma traverseM_ext {A B} (f g : A -> M World B) xs w :
  (forall x w1, f x w1 = g x w1) -> traverseM f xs w = traverseM g xs w.
Proof.
  intros Hfg. revert w; induction xs as [|x xs IH]; intros w; [done|].
  cbn [traverseM]. apply bind_ext; [apply Hfg|].
  intros b w1. apply bind_ext; [apply IH | done].
Qed.

Lemma traverseM_terminates {A B} (f : A -> M World B) xs w :
  (forall x w1, f x w1 <> OutOfFuel) -> traverseM f xs w <> OutOfFuel.
Proof.
  intros Hf. revert w; induction xs as [|x xs IH]; intros w; [done|].
  cbn [traverseM]. unfold mbind, M_bind, bind.
  destruct (f x w) as [b w1| | |] eqn:Hx; [|done|by apply Hf in Hx|done].
  specialize (IH w1). by destruct (traverseM f xs w1).
Qed.

Lemma bind_assoc {A B C} (m : M World A) (f : A -> M World B) (g : B -> M World C) w :
  ((m ≫= f) ≫= g) w = (m ≫= (fun a => f a ≫= g)) w.
Proof. unfold mbind, M_bind, bind. by destruct (m w). Qed.

Lemma ret_bind {A B} (a : A) (k : A -> M World B) w : (ret a ≫= k) w = k a w.
Proof. done. Qed.

(** *** Computations that end *)

Lemma terminated_draws {A} (r : run World A) : terminated r -> r <> OutOfDraws.
Proof. by destruct r. Qed.

Lemma terminated_fuel {A} (r : run World A) : terminated r -> r <> OutOfFuel.
Proof. by destruct r. Qed.

Lemma perform_terminated {A} (e : Ext World A) w : terminated (perform e w).
Proof. unfold perform. by destruct (e w) as [[a w']|x]. Qed.

Lemma bind_terminated {A B} (m : M World A) (k : A -> M World B) w :
  terminated (m w) -> (forall a w1, m w = Returns a w1 -> terminated (k a w1)) ->
  terminated ((m ≫= k) w).
Proof.
  intros Hm Hk. unfold mbind, M_bind, bind.
  destruct (m w) as [a w1| | |]; [by apply Hk | done..].
Qed.

Lemma traverseM_terminated {A B} (f : A -> M World B) xs w :
  (forall x w1, terminated (f x w1)) -> terminated (traverseM f xs w).
Proof.
  intros Hf. revert w; induction xs as [|x xs IH]; intros w; [done|].
  cbn [traverseM]. apply bind_terminated; [apply Hf|]. intros b w1 _.
  apply bind_terminated; [apply IH | done].
Qed.

(** *** The draws allowed *)

Lemma steady_const {A} (m : M World A) : steady (fun _ => m).
Proof. by intros d d' w _ _. Qed.

Lemma steady_bind {A B} (f : nat -> M World A) (g : nat -> A -> M World B) :
  steady f -> (forall a, steady (fun d => g d a)) -> steady (fun d => f d ≫= g d).
Proof.
  intros Hf Hg d d' w Hd. unfold mbind, M_bind, bind. intros Hrun.
  rewrite (Hf d d' w Hd) by (by destruct (f d w)).
  destruct (f d w) as [a w1| | |]; [|done..]. by apply (Hg a).
Qed.

Lemma steady_terminated {A} (f : nat -> M World A) d d' w :
  steady f -> d <= d' -> terminated (f d w) -> f d' w = f d w.
Proof. intros Hf Hd Ht. by apply Hf, terminated_draws. Qed.

(** Two steady computations in sequence end when each of them does, given
    draws enough for both. *)
Lemma eventually_bind {A B} (f : nat -> M World A) (g : nat -> A -> M World B) w :
  steady f -> (forall a, steady (fun d => g d a)) ->
  (exists d, terminated (f d w)) ->
  (forall d a w1, f d w = Returns a w1 -> exists d', terminated (g d' a w1)) ->
  exists d, terminated ((f d ≫= g d) w).
Proof.
  intros Hf Hg [d1 H1] Hk.
  destruct (f d1 w) as [a w1| | |] eqn:Hrun; [|exists d1..]; cycle 1.
  { unfold mbind, M_bind, bind. by rewrite Hrun. }
  { done. }
  { done. }
  destruct (Hk d1 a w1 Hrun) as [d2 H2].
  exists (d1 `max` d2). unfold mbind, M_bind, bind.
  assert (f (d1 `max` d2) w = f d1 w) as -> by (apply Hf; [lia | by rewrite Hrun]).
  rewrite Hrun.
  assert (g (d1 `max` d2) a w1 = g d2 a w1) as ->; [|done].
  apply (Hg a); [lia | by apply terminated_draws].
Qed.

End Run.
End RunFacts.

(** ** [random.sample] *)

Module SamplingFacts.
Import Keypoints RunFacts PipelineSpec.

Section Sampling.
Context {World : Type}.
Variable randbelow : nat -> Ext World nat.
Variable draws : nat.

Lemma pool_entry (pool : list nat) n j y i z :
  take (n - 1) (<[j:=y]> pool) !! i = Some z ->
  pool !! (n - 1) = Some y ->
  exists i', i' < n /\ i' <> j /\ pool !! i' = Some z /\ i < n - 1
             /\ ((i = j /\ i' = n - 1) \/ (i <> j /\ i' = i)).
Proof.
  intros [Hins Hi]%lookup_take_Some Hy.
  apply list_lookup_insert_Some in Hins as [(-> & -> & _)|[Hne Hz]].
  - exists (n - 1). repeat split; [lia | lia | done | done | left; done].
  - exists i. repeat split; [lia | done | done | done | right; done].
Qed.

Lemma pool_step (pool : list nat) n j x y :
  NoDup (take n pool) -> j < n -> pool !! j = Some x -> pool !! (n - 1) = Some y ->
  NoDup (take (n - 1) (<[j:=y]> pool))
  /\ (x ∉ take (n - 1) (<[j:=y]> pool))
  /\ (forall z, z ∈ take (n - 1) (<[j:=y]> pool) -> z ∈ take n pool).
Proof.
  intros Hnd Hj Hx Hy.
  assert (Hinj : forall a b z, a < n -> b < n ->
                   pool !! a = Some z -> pool !! b = Some z -> a = b).
  { intros a b z Ha Hb Hpa Hpb.
    eapply (proj1 (NoDup_alt _) Hnd); apply lookup_take_Some; eauto. }
  split; [|split].
  - apply NoDup_alt. intros i1 i2 z H1 H2.
    destruct (pool_entry _ _ _ _ _ _ H1 Hy) as (a & Ha & _ & Hpa & Hi1 & Hca).
    destruct (pool_entry _ _ _ _ _ _ H2 Hy) as (b & Hb & _ & Hpb & Hi2 & Hcb).
    pose proof (Hinj a b z Ha Hb Hpa Hpb). lia.
  - intros (i & Hi)%list_elem_of_lookup.
    destruct (pool_entry _ _ _ _ _ _ Hi Hy) as (a & Ha & Hne & Hpa & _ & _).
    apply Hne. by eapply Hinj.
  - intros z (i & Hi)%list_elem_of_lookup.
    destruct (pool_entry _ _ _ _ _ _ Hi Hy) as (a & Ha & _ & Hpa & _ & _).
    eapply list_elem_of_lookup_2, lookup_take_Some; eauto.
Qed.

Lemma pool_draw_spec k : forall n (pool : list nat) w,
  randbelow_in_range randbelow ->
  k <= n -> n <= length pool -> NoDup (take n pool) ->
  exists idxs w', pool_draw randbelow k n pool w = Returns idxs w'
    /\ length idxs = k /\ NoDup idxs /\ (forall i, i ∈ idxs -> i ∈ take n pool).
Proof.
  induction k as [|k IH]; intros n pool w Hrb Hk Hn Hnd.
  - exists [], w. repeat split; [constructor | by intros ? ?%elem_of_nil].
  - destruct (Hrb n w) as (j & w1 & Hdraw & Hj); [lia|].
    destruct (lookup_lt_is_Some_2 pool j) as [x Hx]; [lia|].
    destruct (lookup_lt_is_Some_2 pool (n - 1)) as [y Hy]; [lia|].
    destruct (pool_step pool n j x y Hnd Hj Hx Hy) as (Hnd' & Hfresh & Hsub).
    destruct (IH (n - 1) (<[j:=y]> pool) w1 Hrb) as (idxs & w' & Hrest & Hlen & Hnd2 & Hin);
      [lia | rewrite length_insert; lia | done |].
    exists (x :: idxs), w'. split; [|split; [|split]].
    + cbn [pool_draw]. rewrite (bind_returns _ _ _ _ _ (perform_ok _ _ _ _ Hdraw)).
      rewrite Hx, Hy. by rewrite (bind_returns _ _ _ _ _ Hrest).
    + cbn. by rewrite Hlen.
    + constructor; [|done]. intros Hxin. by apply Hfresh, Hin.
    + intros i [->|Hi]%elem_of_cons.
      * eapply list_elem_of_lookup_2, lookup_take_Some; eauto.
      * by apply Hsub, Hin.
Qed.

(** *** The set branch *)

Lemma redraw_fresh tries : forall n (sel : gset nat) w j w',
  redraw randbelow tries n sel w = Returns j w' -> j ∉ sel.
Proof.
  induction tries as [|tries IH]; intros n sel w j w'; cbn [redraw]; [done|].
  intros (j0 & w1 & _ & Hrest)%bind_inv.
  destruct (decide (j0 ∈ sel)) as [Hin|Hout]; [by eapply IH|].
  unfold ret in Hrest. by injection Hrest as <- _.
Qed.

Lemma range_item_inv n j (w : World) x w' :
  range_item n j w = Returns x w' -> x = j /\ j < n /\ w' = w.
Proof.
  unfold range_item. destruct (Nat.ltb_spec j n); [|done].
  unfold ret. by intros [= <- <-].
Qed.

(** Whatever the generator does, a sample that the set branch returns has
    [k] pairwise distinct members of [range(n)]. *)
Lemma set_draw_sound k : forall n (sel : gset nat) w idxs w',
  set_draw randbelow draws k n sel w = Returns idxs w' ->
  length idxs = k /\ NoDup idxs /\ forall i, i ∈ idxs -> i < n /\ i ∉ sel.
Proof.
  induction k as [|k IH]; intros n sel w idxs w'; cbn [set_draw].
  - unfold ret. intros [= <- _].
    split; [done|]. split; [constructor | by intros ? ?%elem_of_nil].
  - intros (j & w1 & Hj%redraw_fresh
            & (x & w2 & (-> & Hjn & ->)%range_item_inv
            & (rest & w3 & Hrest & [= <- _])%bind_inv)%bind_inv)%bind_inv.
    destruct (IH _ _ _ _ _ Hrest) as (Hlen & Hnd & Hin).
    split; [cbn; by rewrite Hlen|]. split.
    + constructor; [|done]. intros [_ Hnot]%Hin.
      apply Hnot, elem_of_union. left. by apply elem_of_singleton.
    + intros i [->|Hi]%elem_of_cons; [done|].
      destruct (Hin i Hi) as [Hlt Hnot]. split; [done|].
      intros Hs. apply Hnot, elem_of_union. by right.
Qed.

Lemma redraw_steady n (sel : gset nat) :
  steady (fun d => redraw randbelow d n sel).
Proof.
  intros d. induction d as [|d IH]; intros d' w Hd; cbn [redraw]; [done|].
  destruct d' as [|d']; [lia|]. cbn [redraw].
  unfold mbind, M_bind, bind.
  destruct (perform (randbelow n) w) as [j w1| | |]; [|done..].
  destruct (decide (j ∈ sel)); [|done]. apply IH. lia.
Qed.

Lemma set_draw_steady k : forall n (sel : gset nat),
  steady (fun d => set_draw randbelow d k n sel).
Proof.
  induction k as [|k IH]; intros n sel; cbn [set_draw]; [apply steady_const|].
  apply (steady_bind (fun d => redraw randbelow d n sel)); [apply redraw_steady|].
  intros j. apply (steady_bind (fun _ => range_item n j)); [apply steady_const|].
  intros x.
  apply (steady_bind (fun d => set_draw randbelow d k n ({[j]} ∪ sel))
                     (fun _ rest => ret (x :: rest))); [apply IH|].
  intros rest. apply steady_const.
Qed.

Lemma random_sample_steady n k :
  steady (fun d => random_sample randbelow d n k).
Proof.
  unfold random_sample. destruct (_ && _); [|apply steady_const].
  destruct (n <=? _); [apply steady_const | apply set_draw_steady].
Qed.

(** The redraw loop ends once a value outside [selected] has come up. *)
Lemma redraw_comes_up m : forall n v (sel : gset nat) w,
  comes_up randbelow m n v w -> v ∉ sel ->
  exists j w', redraw randbelow (S m) n sel w = Returns j w'.
Proof.
  induction m as [|m IH]; intros n v sel w; cbn [comes_up redraw];
    unfold mbind, M_bind, bind, perform;
    destruct (randbelow n w) as [[j w1]|e]; try done.
  - intros [->|[]] Hv. destruct (decide (v ∈ sel)); [done|]. by eexists _, _.
  - intros [->|Hlater] Hv.
    + destruct (decide (v ∈ sel)); [done|]. by eexists _, _.
    + destruct (decide (j ∈ sel)); [|by eexists _, _].
      by apply (IH n v sel w1).
Qed.

Lemma fresh_value n (sel : gset nat) : size sel < n -> exists v, v < n /\ v ∉ sel.
Proof.
  intros Hsize.
  destruct (decide (Forall (fun v => v ∈ sel) (seq 0 n))) as [Hall|Hsome].
  - assert (Hsub : list_to_set (C := gset nat) (seq 0 n) ⊆ sel).
    { intros v Hv%elem_of_list_to_set. by eapply Forall_forall in Hall. }
    apply subseteq_size in Hsub.
    rewrite size_list_to_set, length_seq in Hsub by apply NoDup_seq. lia.
  - apply not_Forall_Exists in Hsome; [|intros v; apply _].
    apply Exists_exists in Hsome as (v & Hv%elem_of_seq & Hnot).
    exists v. split; [lia | done].
Qed.

Lemma redraw_in_range tries : forall n (sel : gset nat) w j w',
  randbelow_in_range randbelow -> 0 < n ->
  redraw randbelow tries n sel w = Returns j w' -> j < n.
Proof.
  induction tries as [|tries IH]; intros n sel w j w' Hrb Hn; cbn [redraw]; [done|].
  destruct (Hrb n w Hn) as (j0 & w1 & Hdraw & Hj0).
  rewrite (bind_returns _ _ _ _ _ (perform_ok _ _ _ _ Hdraw)).
  destruct (decide (j0 ∈ sel)); [by apply IH|].
  unfold ret. by intros [= <- _].
Qed.

(** With a generator that stays in range and avoids no value, the set branch
    returns, given draws enough. *)
Lemma set_draw_returns k : forall n (sel : gset nat) w,
  randbelow_in_range randbelow -> every_value_comes_up randbelow ->
  size sel + k <= n ->
  exists d idxs w', set_draw randbelow d k n sel w = Returns idxs w'.
Proof.
  induction k as [|k IH]; intros n sel w Hrb Hup Hsize.
  - by exists 0, [], w.
  - destruct (fresh_value n sel) as (v & Hv & Hfresh); [lia|].
    destruct (Hup n v w Hv) as [m Hm].
    destruct (redraw_comes_up m n v sel w Hm Hfresh) as (j & w1 & Hj).
    pose proof (redraw_fresh _ _ _ _ _ _ Hj) as Hjsel.
    assert (Hjn : j < n) by (eapply redraw_in_range; [done | lia | done]).
    destruct (IH n ({[j]} ∪ sel) w1 Hrb Hup) as (d2 & rest & w' & Hrest).
    { rewrite size_union, size_singleton by set_solver. lia. }
    exists (S m `max` d2), (j :: rest), w'. cbn [set_draw].
    assert (redraw randbelow (S m `max` d2) n sel w = Returns j w1) as Hj'.
    { rewrite <- Hj. apply redraw_steady; [lia | by rewrite Hj]. }
    rewrite (bind_returns _ _ _ _ _ Hj').
    unfold range_item. destruct (Nat.ltb_spec j n); [|lia]. rewrite ret_bind.
    assert (set_draw randbelow (S m `max` d2) k n ({[j]} ∪ sel) w1 = Returns rest w')
      as Hrest'.
    { rewrite <- Hrest. apply set_draw_steady; [lia | by rewrite Hrest]. }
    by rewrite (bind_returns _ _ _ _ _ Hrest').
Qed.

Lemma redraw_no_fuel tries : forall n (sel : gset nat) w,
  redraw randbelow tries n sel w <> OutOfFuel.
Proof.
  induction tries as [|tries IH]; intros n sel w; cbn [redraw]; [done|].
  unfold mbind, M_bind, bind, perform.
  destruct (randbelow n w) as [[j w1]|e]; [|done].
  destruct (decide (j ∈ sel)); [apply IH | done].
Qed.

Lemma set_draw_no_fuel k : forall n (sel : gset nat) w,
  set_draw randbelow draws k n sel w <> OutOfFuel.
Proof.
  induction k as [|k IH]; intros n sel w; cbn [set_draw]; [done|].
  unfold mbind, M_bind, bind.
  pose proof (redraw_no_fuel draws n sel w) as Hr.
  destruct (redraw randbelow draws n sel w) as [j w1| | |]; [|done..].
  unfold range_item. destruct (j <? n); [|done]. unfold ret.
  specialize (IH n ({[j]} ∪ sel) w1).
  by destruct (set_draw randbelow draws k n ({[j]} ∪ sel) w1).
Qed.

(** *** The choice between the branches *)

Lemma ceil_log4_from_spec fuel : forall e p x,
  p = 4 ^ e -> x <= p + fuel -> x <= 4 ^ ceil_log4_from fuel e p x.
Proof.
  induction fuel as [|fuel IH]; intros e p x Hp Hx; cbn [ceil_log4_from].
  - lia.
  - destruct (Nat.leb_spec x p); [lia|].
    assert (0 < 4 ^ e) by (apply Nat.neq_0_lt_0, Nat.pow_nonzero; lia).
    apply IH; [rewrite Nat.pow_succ_r'; lia | lia].
Qed.

(** A sample as large as the population is always drawn from the pool. *)
Lemma setsize_all n : n <= setsize n.
Proof.
  unfold setsize. destruct (Nat.ltb_spec 5 n); [|lia].
  pose proof (ceil_log4_from_spec (n * 3) 0 1 (n * 3) eq_refl) as Hlog.
  unfold ceil_log4. lia.
Qed.

Lemma random_sample_pool n k w :
  (0 <= k <= Z.of_nat n)%Z -> n <= setsize (Z.to_nat k) ->
  random_sample randbelow draws n k w = pool_draw randbelow (Z.to_nat k) n (seq 0 n) w.
Proof.
  intros Hk Hn. unfold random_sample.
  destruct (Z.leb_spec 0 k), (Z.leb_spec k (Z.of_nat n)); try lia. cbn.
  by destruct (Nat.leb_spec n (setsize (Z.to_nat k))); [|lia].
Qed.

(** *** What [random.sample] returns *)

(** More samples than indices, or a negative count: [ValueError]. *)
Lemma random_sample_too_many n k w :
  (k < 0 \/ Z.of_nat n < k)%Z -> random_sample randbelow draws n k w = Raises ValueError.
Proof.
  intros Hk. unfold random_sample.
  destruct (Z.leb_spec 0 k), (Z.leb_spec k (Z.of_nat n)); cbn; try done; lia.
Qed.

Lemma pool_sample n k w :
  randbelow_in_range randbelow -> (0 <= k <= Z.of_nat n)%Z ->
  exists idxs w', pool_draw randbelow (Z.to_nat k) n (seq 0 n) w = Returns idxs w'
    /\ Z.of_nat (length idxs) = k /\ NoDup idxs /\ (forall i, i ∈ idxs -> i < n).
Proof.
  intros Hrb Hk.
  destruct (pool_draw_spec (Z.to_nat k) n (seq 0 n) w Hrb) as (idxs & w' & Hd & Hl & Hnd & Hin).
  - lia.
  - by rewrite length_seq.
  - rewrite take_ge by (by rewrite length_seq). apply NoDup_seq.
  - exists idxs, w'. repeat split; [done | lia | done |].
    intros i Hi%Hin. rewrite take_ge in Hi by (by rewrite length_seq).
    apply elem_of_seq in Hi. lia.
Qed.


(** It returns: at once when the pool is used, and otherwise once the draws
    allowed suffice for the generator to come up with fresh values. *)
Lemma random_sample_returns n k w :
  randbelow_in_range randbelow -> every_value_comes_up randbelow ->
  (0 <= k <= Z.of_nat n)%Z ->
  exists d0 idxs w', forall d, d0 <= d ->
    random_sample randbelow d n k w = Returns idxs w'.
Proof.
  intros Hrb Hup Hk. unfold random_sample.
  destruct (Z.leb_spec 0 k), (Z.leb_spec k (Z.of_nat n)); try lia. cbn.
  destruct (n <=? setsize (Z.to_nat k)).
  - destruct (pool_sample n k w Hrb) as (idxs & w' & Hs & _); [lia|].
    by exists 0, idxs, w'.
  - destruct (set_draw_returns (Z.to_nat k) n ∅ w Hrb Hup) as (d0 & idxs & w' & Hs).
    { rewrite size_empty. lia. }
    exists d0, idxs, w'. intros d Hd. rewrite <- Hs.
    apply (set_draw_steady (Z.to_nat k) n ∅); [done | by rewrite Hs].
Qed.


End Sampling.
End SamplingFacts.

(** ** [apply_transforms] *)

Module PipelineFacts.
Import Keypoints RunFacts PipelineSpec SamplingFacts.

Section Pipeline.
Context {T : Type} `{Scalar T} {World Targets : Type}.
Variable randbelow : nat -> Ext World nat.
Variable draws : nat.
Variable self : BaseKeypointsDataset T World Targets.

Local Abbreviation Sample := (@PoseEstimationSample T).
Local Abbreviation Transform := (KeypointTransform T World).
Local Abbreviation Rec := (Sample -> list Transform -> M World Sample).

Implicit Types (s : Sample) (t : Transform) (ts pre post applied : list Transform).
Implicit Types (w : World) (rec : Rec).

Lemma plain_only_plain ts : Forall (fun t => plain t = true) (plain_only ts).
Proof.
  induction ts as [|t ts IH]; cbn; [constructor|].
  destruct (plain t) eqn:Ht; [constructor|]; done.
Qed.

Lemma plain_only_id ts : Forall (fun t => plain t = true) ts -> plain_only ts = ts.
Proof. induction 1 as [|t ts Ht _ IH]; cbn; [done|]. by rewrite Ht, IH. Qed.


Lemma for_each_app rec pre post st w :
  for_each randbelow draws self rec (pre ++ post) st w
  = (for_each randbelow draws self rec pre st ≫= for_each randbelow draws self rec post) w.
Proof.
  revert st w; induction pre as [|t pre IH]; intros st w; [done|].
  cbn [for_each app]. rewrite bind_assoc. apply bind_ext; [done|]. apply IH.
Qed.

(** [applied_transforms_so_far] grows by the plain transforms only. *)
Lemma for_each_applied rec ts : forall s applied w s' applied' w',
  for_each randbelow draws self rec ts (s, applied) w = Returns (s', applied') w' ->
  applied' = applied ++ plain_only ts.
Proof.
  induction ts as [|t ts IH]; intros s applied w s' applied' w'.
  - cbn. unfold ret. intros [= _ <- _]. by rewrite app_nil_r.
  - cbn [for_each plain_only]. intros ([s2 a2] & w1 & Hbody & Hrest)%bind_inv.
    apply IH in Hrest as ->. revert Hbody. unfold loop_body, plain.
    destruct (additional_samples_count t =? 0)%Z; cbn [fst snd].
    + intros (x & w2 & _ & [= _ <- _])%bind_inv. by rewrite <- app_assoc.
    + intros (x & w2 & _ & (y & w3 & _ & [= _ <- _])%bind_inv)%bind_inv. done.
Qed.

(** On plain transforms the loop is sequential application, whatever the
    recursive call. *)
Lemma for_each_plain rec ts : forall s applied w,
  Forall (fun t => plain t = true) ts ->
  for_each randbelow draws self rec ts (s, applied) w
  = (s' ← run_in_order ts s; ret (s', applied ++ ts)) w.
Proof.
  induction ts as [|t ts IH]; intros s applied w Hts.
  - cbn. unfold mbind, M_bind, bind, ret. by rewrite app_nil_r.
  - inversion Hts as [|?? Ht Hts']; subst. cbn [for_each run_in_order].
    unfold loop_body. unfold plain in Ht. rewrite Ht. cbn [fst snd].
    rewrite !bind_assoc. apply bind_ext; [done|]. intros s2 w2.
    unfold mbind at 1, M_bind at 1, bind at 1, ret at 1.
    rewrite IH by done. apply bind_ext; [done|]. intros s3 w3.
    by rewrite <- app_assoc.
Qed.

Lemma apply_transforms_plain fuel s ts w :
  Forall (fun t => plain t = true) ts ->
  apply_transforms randbelow draws self (S fuel) s ts w = run_in_order ts s w.
Proof.
  intros Hts. cbn [apply_transforms].
  unfold mbind, M_bind, bind. rewrite for_each_plain by done.
  unfold mbind, M_bind, bind, ret. by destruct (run_in_order ts s w).
Qed.

(** *** Recursion depth *)

Lemma attach_additional_ext rec rec' t s applied w :
  (forall a w1, rec a applied w1 = rec' a applied w1) ->
  attach_additional randbelow draws self rec t (s, applied) w
  = attach_additional randbelow draws self rec' t (s, applied) w.
Proof.
  intros Hrec. unfold attach_additional.
  apply bind_ext; [done|]. intros idxs w1.
  apply bind_ext; [done|]. intros loaded w2.
  apply bind_ext; [|done]. by apply traverseM_ext.
Qed.

(** Two recursive calls that agree on lists of plain transforms give the
    same loop. *)
Lemma for_each_rec_ext rec rec' ts : forall s applied w,
  (forall a l w1, Forall (fun t => plain t = true) l -> rec a l w1 = rec' a l w1) ->
  Forall (fun t => plain t = true) applied ->
  for_each randbelow draws self rec ts (s, applied) w
  = for_each randbelow draws self rec' ts (s, applied) w.
Proof.
  induction ts as [|t ts IH]; intros s applied w Hrec Happ; [done|].
  cbn [for_each]. unfold loop_body. cbn [fst snd].
  destruct (additional_samples_count t =? 0)%Z eqn:Ht.
  - rewrite !bind_assoc. apply bind_ext; [done|]. intros s2 w2.
    rewrite !ret_bind.
    apply IH; [done|]. apply Forall_app; split; [done|]. by repeat constructor.
  - rewrite !bind_assoc. apply bind_ext.
    { apply attach_additional_ext. intros a w1. by apply Hrec. }
    intros s2 w2. rewrite !bind_assoc. apply bind_ext; [done|]. intros s3 w3.
    rewrite !ret_bind. by apply IH.
Qed.

Lemma run_in_order_terminates ts : forall s w, run_in_order ts s w <> OutOfFuel.
Proof.
  induction ts as [|t ts IH]; intros s w; [done|].
  cbn [run_in_order]. unfold mbind, M_bind, bind.
  pose proof (perform_terminates (call t s) w) as Hp.
  destruct (perform (call t s) w); [apply IH | done..].
Qed.

Lemma bind_terminates {A B} (m : M World A) (k : A -> M World B) w :
  m w <> OutOfFuel -> (forall a w1, k a w1 <> OutOfFuel) -> (m ≫= k) w <> OutOfFuel.
Proof. intros Hm Hk. unfold mbind, M_bind, bind. destruct (m w); auto; done. Qed.

Lemma pool_draw_terminates k : forall n pool w,
  pool_draw randbelow k n pool w <> OutOfFuel.
Proof.
  induction k as [|k IH]; intros n pool w; [done|].
  cbn [pool_draw]. apply bind_terminates; [apply perform_terminates|].
  intros j w1. destruct (pool !! j); [|done]. destruct (pool !! (n - 1)); [|done].
  apply bind_terminates; [apply IH | done].
Qed.

Lemma random_sample_terminates n k w : random_sample randbelow draws n k w <> OutOfFuel.
Proof.
  unfold random_sample. destruct (_ && _); [|done].
  destruct (n <=? _); [apply pool_draw_terminates | apply set_draw_no_fuel].
Qed.

Lemma for_each_flat_terminates ts : forall st w,
  for_each randbelow draws self flat ts st w <> OutOfFuel.
Proof.
  induction ts as [|t ts IH]; intros st w; [done|].
  cbn [for_each]. apply bind_terminates; [|apply IH].
  unfold loop_body. destruct (additional_samples_count t =? 0)%Z.
  - apply bind_terminates; [apply perform_terminates | done].
  - apply bind_terminates.
    + unfold attach_additional. destruct st as [s applied].
      apply bind_terminates; [apply random_sample_terminates|]. intros idxs w1.
      apply bind_terminates.
      { apply traverseM_terminates. intros; apply perform_terminates. }
      intros loaded w2. apply bind_terminates; [|done].
      apply traverseM_terminates. intros; apply run_in_order_terminates.
    + intros s2 w2. apply bind_terminates; [apply perform_terminates | done].
Qed.

(** With one level of recursion available the recursive call is [flat]. *)
Lemma for_each_depth_one fuel ts s w :
  for_each randbelow draws self (apply_transforms randbelow draws self (S fuel)) ts (s, []) w
  = for_each randbelow draws self flat ts (s, []) w.
Proof.
  apply for_each_rec_ext; [|constructor].
  intros a l w1 Hl. by apply apply_transforms_plain.
Qed.

Lemma apply_transforms_flat fuel s ts w :
  apply_transforms randbelow draws self (S (S fuel)) s ts w
  = (st ← for_each randbelow draws self flat ts (s, []); ret (fst st)) w.
Proof.
  cbn [apply_transforms]. apply bind_ext; [apply for_each_depth_one | done].
Qed.

(** *** The state of the additional samples *)

(** C1 (as the code has it): when the loop reaches a transform [t] with a
    non-zero count after the transforms [pre], [applied_transforms_so_far]
    holds the plain transforms of [pre], in order (all of [pre] when no
    transform of [pre] has a non-zero count).  The loop then draws the
    indexes, loads the samples afresh, runs exactly these transforms on each
    of them and nothing else, attaches the results to the primary sample and
    calls [t] on it. *)
Theorem additional_samples_intermediate_state fuel s pre t post w s1 applied w1 :
  plain t = false ->
  for_each randbelow draws self (apply_transforms randbelow draws self (S fuel)) pre (s, []) w
    = Returns (s1, applied) w1 ->
  applied = plain_only pre
  /\ (Forall (fun t' => plain t' = true) pre -> applied = pre)
  /\ for_each randbelow draws self (apply_transforms randbelow draws self (S fuel))
              (pre ++ t :: post) (s, []) w
     = (indexes ← random_sample randbelow draws (len self) (additional_samples_count t);
        loaded ← traverseM (fun index => perform (load_sample self index)) indexes;
        additional ← traverseM (run_in_order applied) loaded;
        sample ← perform (call t (set_additional_samples s1 additional));
        for_each randbelow draws self (apply_transforms randbelow draws self (S fuel)) post
                 (sample, applied)) w1.
Proof.
  intros Ht Hpre. pose proof (for_each_applied _ _ _ _ _ _ _ _ Hpre) as Happ.
  cbn [app] in Happ. split; [done|]. split.
  { intros Hplain. by rewrite Happ, plain_only_id. }
  rewrite for_each_app, (bind_returns _ _ _ _ _ Hpre).
  cbn [for_each]. unfold loop_body. unfold plain in Ht. rewrite Ht. cbn [fst snd].
  unfold attach_additional.
  rewrite !bind_assoc. apply bind_ext; [done|]. intros idxs w2.
  rewrite !bind_assoc. apply bind_ext; [done|]. intros loaded w3.
  rewrite !bind_assoc. apply bind_ext.
  { apply traverseM_ext. intros a w4. apply apply_transforms_plain.
    rewrite Happ. apply plain_only_plain. }
  intros additional w4. rewrite ret_bind.
  rewrite !bind_assoc. apply bind_ext; [done|]. intros s2 w5.
  by rewrite ret_bind.
Qed.

(** *** Drawing the additional samples *)


End Pipeline.

(** *** Termination *)

Section Termination.
Context {T : Type} `{Scalar T} {World Targets : Type}.
Variable randbelow : nat -> Ext World nat.
Variable self : BaseKeypointsDataset T World Targets.

Local Abbreviation Sample := (@PoseEstimationSample T).
Local Abbreviation Transform := (KeypointTransform T World).
Local Abbreviation Rec := (Sample -> list Transform -> M World Sample).

Implicit Types (s : Sample) (t : Transform) (ts pre post applied : list Transform).
Implicit Types (w : World) (rec : Rec) (st : Sample * list Transform).

Lemma run_in_order_terminated ts : forall s w, terminated (run_in_order ts s w).
Proof.
  induction ts as [|t ts IH]; intros s w; [done|].
  cbn [run_in_order]. apply bind_terminated; [apply perform_terminated|].
  intros s1 w1 _. apply IH.
Qed.

Lemma attach_additional_steady t st :
  steady (fun d => attach_additional randbelow d self flat t st).
Proof.
  unfold attach_additional. destruct st as [s applied].
  apply (steady_bind (fun d => random_sample randbelow d _ _)
                     (fun _ indexes => _)); [apply random_sample_steady|].
  intros indexes. apply steady_const.
Qed.

Lemma loop_body_steady t st :
  steady (fun d => loop_body randbelow d self flat st t).
Proof.
  unfold loop_body. destruct (additional_samples_count t =? 0)%Z; [apply steady_const|].
  apply (steady_bind (fun d => attach_additional randbelow d self flat t st)
                     (fun _ sample => _)); [apply attach_additional_steady|].
  intros sample. apply steady_const.
Qed.

Lemma for_each_steady ts : forall st,
  steady (fun d => for_each randbelow d self flat ts st).
Proof.
  induction ts as [|t ts IH]; intros st; cbn [for_each]; [apply steady_const|].
  apply (steady_bind (fun d => loop_body randbelow d self flat st t)
                     (fun d st' => for_each randbelow d self flat ts st'));
    [apply loop_body_steady | apply IH].
Qed.

Lemma attach_additional_eventually t st w :
  randbelow_in_range randbelow -> every_value_comes_up randbelow ->
  exists d, terminated (attach_additional randbelow d self flat t st w).
Proof.
  intros Hrb Hup. unfold attach_additional. destruct st as [s applied].
  destruct (Z_lt_le_dec (additional_samples_count t) 0) as [Hneg|Hpos].
  { exists 0. rewrite (bind_raises _ _ _ ValueError); [done|].
    apply random_sample_too_many. by left. }
  destruct (Z_lt_le_dec (Z.of_nat (len self)) (additional_samples_count t)) as [Hbig|Hle].
  { exists 0. rewrite (bind_raises _ _ _ ValueError); [done|].
    apply random_sample_too_many. by right. }
  destruct (random_sample_returns randbelow (len self) (additional_samples_count t) w
              Hrb Hup) as (d0 & idxs & w' & Hs); [lia|].
  exists d0. rewrite (bind_returns _ _ _ _ _ (Hs d0 (le_n _))).
  apply bind_terminated.
  { apply traverseM_terminated. intros; apply perform_terminated. }
  intros loaded w2 _. apply bind_terminated; [|done].
  apply traverseM_terminated. intros; apply run_in_order_terminated.
Qed.

Lemma loop_body_eventually t st w :
  randbelow_in_range randbelow -> every_value_comes_up randbelow ->
  exists d, terminated (loop_body randbelow d self flat st t w).
Proof.
  intros Hrb Hup. unfold loop_body.
  destruct (additional_samples_count t =? 0)%Z.
  - exists 0. apply bind_terminated; [apply perform_terminated | done].
  - apply (eventually_bind (fun d => attach_additional randbelow d self flat t st)
                           (fun _ sample => _)).
    + apply attach_additional_steady.
    + intros sample. apply steady_const.
    + by apply attach_additional_eventually.
    + intros _ sample w1 _. exists 0.
      apply bind_terminated; [apply perform_terminated | done].
Qed.

Lemma for_each_eventually ts : forall st w,
  randbelow_in_range randbelow -> every_value_comes_up randbelow ->
  exists d, terminated (for_each randbelow d self flat ts st w).
Proof.
  induction ts as [|t ts IH]; intros st w Hrb Hup; cbn [for_each]; [by exists 0|].
  apply (eventually_bind (fun d => loop_body randbelow d self flat st t)
                         (fun d st' => for_each randbelow d self flat ts st')).
  - apply loop_body_steady.
  - apply for_each_steady.
  - by apply loop_body_eventually.
  - intros _ st' w1 _. by apply IH.
Qed.

(** With recursion depth 2 and a generator that stays in range and avoids no
    value, [apply_transforms] returns or raises once the draws allowed to
    [random.sample] suffice, and more draws change nothing. *)
Lemma apply_transforms_eventually fuel s ts w :
  randbelow_in_range randbelow -> every_value_comes_up randbelow ->
  exists d0, forall d, d0 <= d ->
    terminated (apply_transforms randbelow d self (S (S fuel)) s ts w)
    /\ apply_transforms randbelow d self (S (S fuel)) s ts w
       = apply_transforms randbelow d0 self (S (S fuel)) s ts w.
Proof.
  intros Hrb Hup.
  destruct (for_each_eventually ts (s, []) w Hrb Hup) as [d0 Hd0].
  exists d0. intros d Hd. rewrite !apply_transforms_flat.
  unfold mbind, M_bind, bind.
  rewrite (steady_terminated _ d0 d w (for_each_steady ts (s, [])) Hd Hd0).
  split; [|done]. by destruct (for_each randbelow d0 self flat ts (s, []) w).
Qed.




End Termination.
End PipelineFacts.

(** ** [__init__]: the colour defaults *)

Module InitFacts.
Import Keypoints.

Section Init.
Context {T : Type} `{Scalar T} {World Targets : Type}.
Variable generate_color_mapping : Z -> list Color.

Lemma or_generated_none count :
  or_generated generate_color_mapping ColorsNone count
  = Ok (ColorsList (generate_color_mapping count)).
Proof. done. Qed.

Lemma or_generated_list c l count :
  or_generated generate_color_mapping (ColorsList (c :: l)) count
  = Ok (ColorsList (c :: l)).
Proof. done. Qed.

Lemma or_generated_array c a count :
  or_generated generate_color_mapping (ColorsArray (c :: a)) count = Raise ValueError.
Proof. done. Qed.

(** C9, the code at the failing input: a caller who passes the empty list
    for both colour arguments does not get it stored; [__init__] stores the
    generated defaults instead, as it does for [None]. *)
Theorem empty_colors_are_replaced
    (target_generator : @PoseEstimationSample T -> Ext World Targets)
    (transforms : list (KeypointTransform T World)) (min_instance_area : T)
    (num_joints : Z) (edge_links : list (nat * nat)) (len : nat)
    (load_sample : nat -> Ext World (@PoseEstimationSample T)) :
  init generate_color_mapping target_generator transforms min_instance_area
       num_joints edge_links (ColorsList []) (ColorsList []) len load_sample
  = Ok (mkDataset target_generator transforms min_instance_area num_joints edge_links
          (ColorsList (generate_color_mapping (Z.of_nat (length edge_links))))
          (ColorsList (generate_color_mapping num_joints))
          len load_sample).
Proof. done. Qed.

End Init.
End InitFacts.

(** ** [KeypointsCollate] *)

Module CollateFacts.
Import Collate CollateSpec.

Section Facts.
Context {Image Target V Images Targets : Type}.
Variable default_collate_images : list Image -> result Images.
Variable default_collate_targets : list Target -> result Targets.

Implicit Types (d first : gmap string V) (extras rest : list (gmap string V)).
Implicit Types (k : string) (col : list V).

Lemma traverse_Forall2 {A B} (f : A -> result B) xs ys :
  traverse f xs = Ok ys <-> Forall2 (fun x y => f x = Ok y) xs ys.
Proof.
  revert ys; induction xs as [|x xs IH]; intros ys; cbn.
  - split; [intros [= <-]; constructor | by inversion 1].
  - split.
    + intros (b & Hb & (bs & Hbs & [= <-])%rbind_ok)%rbind_ok.
      constructor; [done | by apply IH].
    + inversion 1 as [|?? y ys' Hy Hys]; subst. rewrite Hy. cbn.
      apply IH in Hys. rewrite Hys. done.
Qed.

Lemma getitem_key_ok k d v : getitem_key k d = Ok v <-> d !! k = Some v.
Proof. unfold getitem_key. destruct (d !! k); split; congruence. Qed.

Lemma getitem_key_raise k d e :
  getitem_key k d = Raise e -> e = KeyError /\ d !! k = None.
Proof. unfold getitem_key. destruct (d !! k); [done|]. by intros [= <-]. Qed.

Lemma column_ok k extras col :
  traverse (getitem_key k) extras = Ok col <-> column_of k extras col.
Proof.
  rewrite traverse_Forall2. unfold column_of.
  split; intros Hcol; (eapply Forall2_impl; [exact Hcol|]);
    intros d v; apply getitem_key_ok.
Qed.

Lemma column_total k extras :
  Forall (fun d => is_Some (d !! k)) extras ->
  exists col, traverse (getitem_key k) extras = Ok col.
Proof.
  induction 1 as [|d extras [v Hv] _ [col IH]]; [by exists []|].
  exists (v :: col). cbn. rewrite (proj2 (getitem_key_ok _ _ _) Hv). cbn.
  by rewrite IH.
Qed.

Lemma items_ok extras keys items :
  traverse (item_of extras) keys = Ok items ->
  items.*1 = keys /\ Forall (fun it => column_of (fst it) extras (snd it)) items.
Proof.
  revert items; induction keys as [|k keys IH]; intros items; cbn.
  - intros [= <-]. split; [done | constructor].
  - intros (it & Hit & (its & Hits & [= <-])%rbind_ok)%rbind_ok.
    destruct (IH _ Hits) as [Hk Hc].
    apply rbind_ok in Hit as (col & Hcol%column_ok & [= <-]).
    split; [cbn; by rewrite Hk | by constructor].
Qed.

Lemma items_total extras keys :
  Forall (fun k => Forall (fun d => is_Some (d !! k)) extras) keys ->
  exists items, traverse (item_of extras) keys = Ok items.
Proof.
  induction 1 as [|k keys Hk _ [items IH]]; [by exists []|].
  destruct (column_total _ _ Hk) as [col Hcol].
  exists ((k, col) :: items). cbn [traverse].
  assert (item_of extras k = Ok (k, col)) as ->
    by (unfold item_of; by rewrite Hcol).
  by rewrite IH.
Qed.

Lemma items_raise extras keys e :
  traverse (item_of extras) keys = Raise e -> e = KeyError.
Proof.
  intros (k & _ & Hk)%traverse_raise_inv. unfold item_of in Hk.
  destruct (traverse (getitem_key k) extras) as [col|e'] eqn:Hcol; [done|].
  cbn in Hk. injection Hk as <-.
  apply traverse_raise_inv in Hcol as (d & _ & Hd).
  by destruct (getitem_key_raise _ _ _ Hd).
Qed.

Lemma key_of_first first k :
  k ∈ (map_to_list first).*1 <-> is_Some (first !! k).
Proof.
  rewrite list_elem_of_fmap. split.
  - intros ([k' v] & -> & Hin%elem_of_map_to_list). by exists v.
  - intros [v Hv]. exists (k, v). split; [done | by apply elem_of_map_to_list].
Qed.

(** What line 174 returns when it returns. *)
Lemma transpose_ok first rest ex :
  transpose (first :: rest) = Ok ex ->
  dom ex = dom first
  /\ forall k col, ex !! k = Some col -> column_of k (first :: rest) col.
Proof.
  unfold transpose. fold (item_of (first :: rest)).
  intros (items & Hitems & [= <-])%rbind_ok.
  destruct (items_ok _ _ _ Hitems) as [Hkeys Hcols].
  assert (Hnd : NoDup items.*1) by (rewrite Hkeys; apply NoDup_fst_map_to_list).
  split.
  - apply set_eq. intros k. rewrite !elem_of_dom, <- key_of_first, <- Hkeys.
    rewrite list_elem_of_fmap. split.
    + intros [col Hcol%elem_of_list_to_map_2]. by exists (k, col).
    + intros ([k' col] & -> & Hin). exists col. by apply elem_of_list_to_map_1.
  - intros k col Hcol%elem_of_list_to_map_2.
    by apply (proj1 (Forall_forall _ _) Hcols (k, col)).
Qed.

(** It returns when every dict has every key of the first one. *)
Lemma transpose_total first rest :
  (forall d k, d ∈ rest -> is_Some (first !! k) -> is_Some (d !! k)) ->
  exists ex, transpose (first :: rest) = Ok ex.
Proof.
  intros Hall. unfold transpose. fold (item_of (first :: rest)).
  destruct (items_total (first :: rest) (map_to_list first).*1) as [items Hitems].
  - apply Forall_forall. intros k Hk%key_of_first.
    constructor; [done|]. apply Forall_forall. intros d Hd. by apply Hall.
  - rewrite Hitems. cbn. eauto.
Qed.

(** It raises [KeyError] when a later dict lacks a key of the first one. *)
Lemma transpose_missing first rest d k :
  d ∈ rest -> is_Some (first !! k) -> d !! k = None ->
  transpose (first :: rest) = Raise KeyError.
Proof.
  intros Hd Hk Hnone.
  destruct (transpose (first :: rest)) as [ex|e] eqn:Htr.
  - destruct (transpose_ok _ _ _ Htr) as [Hdom Hcols].
    assert (is_Some (ex !! k)) as [col Hcol].
    { apply elem_of_dom. rewrite Hdom. by apply elem_of_dom. }
    specialize (Hcols k col Hcol). unfold column_of in Hcols.
    apply Forall2_cons_inv_l in Hcols as (v & col' & _ & Hrest & ->).
    apply list_elem_of_lookup in Hd as [i Hi].
    destruct (Forall2_lookup_l _ _ _ _ _ Hrest Hi) as (v' & _ & Hv'). congruence.
  - f_equal. revert Htr. unfold transpose. fold (item_of (first :: rest)).
    destruct (traverse (item_of (first :: rest)) (map_to_list first).*1) as [items|e'] eqn:Hit;
      cbn; [done|].
    intros [= <-]. by eapply items_raise.
Qed.

Lemma lookup_map_Some {A B} (f : A -> B) (l : list A) i x :
  l !! i = Some x -> map f l !! i = Some (f x).
Proof.
  revert i; induction l as [|x0 l IH]; intros [|i]; cbn; try done.
  - by intros [= ->].
  - apply IH.
Qed.

Lemma elem_of_map_snd {A B} (l : list (A * B)) (y : B) :
  y ∈ map snd l -> exists x, x ∈ l /\ snd x = y.
Proof.
  intros (x & <- & Hx)%list_elem_of_In%in_map_iff. exists x.
  split; [by apply list_elem_of_In | done].
Qed.

Lemma collate_returns (batch : list (Image * Target * gmap string V)) ex imgs tgts :
  transpose (map snd batch) = Ok ex ->
  default_collate_images (map (fun x => fst (fst x)) batch) = Ok imgs ->
  default_collate_targets (map (fun x => snd (fst x)) batch) = Ok tgts ->
  KeypointsCollate_call default_collate_images default_collate_targets batch
  = Ok (imgs, tgts, ex).
Proof. intros Hex Hi Ht. unfold KeypointsCollate_call. by rewrite Hex, Hi, Ht. Qed.

Lemma collate_inv (batch : list (Image * Target * gmap string V)) r :
  KeypointsCollate_call default_collate_images default_collate_targets batch = Ok r ->
  transpose (map snd batch) = Ok (snd r).
Proof.
  unfold KeypointsCollate_call.
  intros (ex & Hex & (imgs & _ & (tgts & _ & [= <-])%rbind_ok)%rbind_ok)%rbind_ok.
  done.
Qed.

(** C7: for a non-empty batch whose extras dicts all have the key set of the
    first one, line 174 yields a dict with that key set in which each key
    maps to the list of the per-sample values for that key: one entry per
    sample, entry [j] being the value of sample [j] itself.  This dict is
    what [__call__] returns as extras whenever [default_collate] accepts the
    images and the targets. *)
Theorem collate_extras (b : Image * Target * gmap string V) bs :
  (forall d, d ∈ map snd (b :: bs) -> dom d = dom (snd b)) ->
  exists ex,
    transpose (map snd (b :: bs)) = Ok ex
    /\ dom ex = dom (snd b)
    /\ (forall k, k ∈ dom (snd b) ->
         exists col, ex !! k = Some col
           /\ length col = length (b :: bs)
           /\ forall j x, (b :: bs) !! j = Some x -> col !! j = snd x !! k)
    /\ (forall imgs tgts,
         default_collate_images (map (fun x => fst (fst x)) (b :: bs)) = Ok imgs ->
         default_collate_targets (map (fun x => snd (fst x)) (b :: bs)) = Ok tgts ->
         KeypointsCollate_call default_collate_images default_collate_targets (b :: bs)
         = Ok (imgs, tgts, ex))
    /\ (forall r,
         KeypointsCollate_call default_collate_images default_collate_targets (b :: bs)
         = Ok r -> snd r = ex).
Proof.
  intros Hkeys. cbn [map] in *.
  destruct (transpose_total (snd b) (map snd bs)) as [ex Hex].
  { intros d k Hd Hk. apply elem_of_dom. rewrite (Hkeys d).
    - by apply elem_of_dom.
    - apply elem_of_cons. by right. }
  destruct (transpose_ok _ _ _ Hex) as [Hdom Hcols].
  exists ex. split; [done|]. split; [done|]. split; [|split].
  - intros k Hk. rewrite <- Hdom in Hk. apply elem_of_dom in Hk as [col Hcol].
    exists col. split; [done|]. specialize (Hcols k col Hcol). unfold column_of in Hcols.
    split.
    + apply Forall2_length in Hcols. cbn in *. by rewrite <- Hcols, length_map.
    + intros j x Hx.
      assert (Hd : (snd b :: map snd bs) !! j = Some (snd x)).
      { by apply (lookup_map_Some snd (b :: bs)). }
      destruct (Forall2_lookup_l _ _ _ _ _ Hcols Hd) as (v & -> & Hv). done.
  - intros imgs tgts Hi Ht. by apply collate_returns.
  - intros r Hr%collate_inv. cbn [map] in Hr. congruence.
Qed.

(** C10: for a non-empty batch, the key set of the extras that [__call__]
    returns is the key set of the first element's extras: a key found only in
    later elements is absent from the result.  When a later element lacks a
    key of the first one, [__call__] raises [KeyError]; when none does, line
    174 goes through. *)
Theorem collate_key_set (b : Image * Target * gmap string V) bs :
  (forall r,
     KeypointsCollate_call default_collate_images default_collate_targets (b :: bs)
     = Ok r ->
     dom (snd r) = dom (snd b)
     /\ forall k, snd b !! k = None -> snd r !! k = None)
  /\ (forall x k, x ∈ bs -> is_Some (snd b !! k) -> snd x !! k = None ->
      KeypointsCollate_call default_collate_images default_collate_targets (b :: bs)
      = Raise KeyError)
  /\ ((forall x k, x ∈ bs -> is_Some (snd b !! k) -> is_Some (snd x !! k)) ->
      exists ex, transpose (map snd (b :: bs)) = Ok ex /\ dom ex = dom (snd b)).
Proof.
  split; [|split].
  - intros r Hr%collate_inv. cbn [map] in Hr.
    destruct (transpose_ok _ _ _ Hr) as [Hdom _]. split; [done|].
    intros k Hk. apply not_elem_of_dom. rewrite Hdom. by apply not_elem_of_dom.
  - intros x k Hx Hk Hnone. unfold KeypointsCollate_call. cbn [map].
    rewrite (transpose_missing (snd b) (map snd bs) (snd x) k); [done| |done..].
    apply list_elem_of_In, in_map, list_elem_of_In, Hx.
  - intros Hall. cbn [map].
    destruct (transpose_total (snd b) (map snd bs)) as [ex Hex].
    { intros d k (x & Hx & <-)%elem_of_map_snd Hk. by apply Hall. }
    exists ex. split; [done|]. by destruct (transpose_ok _ _ _ Hex).
Qed.

End Facts.
End CollateFacts.

(** * Concrete runs *)

Module Examples.
Import Keypoints FilterSpec PipelineSpec CollateSpec Instances MoreInstances.
Import FilterFacts SamplingFacts PipelineFacts InitFacts Collate CollateFacts.
Local Open Scope Z_scope.

(** ** Filtering a sample with integer coordinates *)

Example filter_three_instances :
  filter_joints 100 three_instances = Ok large_instance.
Proof. reflexivity. Qed.

Example filter_out_of_frame_instance :
  filter_joints 0 out_of_frame_instance
  = Ok (mkSample (mkImage true (3, 100, 100)%nat []) [] [] (Some []) (Some []) [] None).
Proof. reflexivity. Qed.

Lemma filter_joints_idempotent_witness :
  filter_joints 100 three_instances = Ok large_instance
  /\ filter_joints 100 large_instance = Ok large_instance.
Proof.
  split; [reflexivity|].
  apply (filter_joints_idempotent 100 three_instances large_instance). reflexivity.
Defined.

Lemma area_rule_witness :
  filter_joints 100 three_instances = Ok large_instance
  /\ exists keep,
       joints large_instance = select keep (hidden_joints three_instances)
       /\ length keep = 3%nat
       /\ keep !! 1%nat = Some (row_visible [J 0 0 2; J 8 8 2] && gtb 64 100)
       /\ keep !! 2%nat = Some (row_visible [J 0 0 2; J 20 20 1] && gtb 400 100).
Proof.
  split; [reflexivity|].
  destruct (area_rule 100 three_instances large_instance)
    as (keep & Hj & _ & _ & _ & Hlen & Hpos & _ & _); [reflexivity|].
  destruct Hpos as (ar & Har & _ & Hkeep); [reflexivity|].
  exists keep. split; [exact Hj|]. split; [exact Hlen|].
  cbn in Har. injection Har as <-.
  split; [apply (Hkeep 1%nat) | apply (Hkeep 2%nat)]; reflexivity.
Defined.

Example filter_three_instances_visible :
  filter_joints 0 three_instances = Ok two_instances.
Proof. reflexivity. Qed.

Lemma out_of_frame_joints_hidden_witness :
  has_frame (image three_instances) 100%nat 100%nat
  /\ filter_joints 0 three_instances = Ok two_instances
  /\ (exists corrected keep,
        keep !! 0%nat = Some false
        /\ keep !! 1%nat = Some true
        /\ joints two_instances = select keep corrected)
  /\ has_frame (image out_of_frame_instance) 100%nat 100%nat
  /\ exists s1 corrected (keep : list bool),
       filter_joints 0 out_of_frame_instance = Ok s1
       /\ keep !! 0%nat = Some false
       /\ joints s1 = select keep corrected.
Proof.
  assert (Hf : has_frame (image three_instances) 100%nat 100%nat)
    by (exists 3%nat; reflexivity).
  assert (Ht : has_frame (image out_of_frame_instance) 100%nat 100%nat)
    by (exists 3%nat; reflexivity).
  split; [exact Hf|]. split; [reflexivity|]. split; [|split; [exact Ht|]].
  - destruct (out_of_frame_joints_hidden 0 three_instances two_instances _ _ Hf)
      as (corrected & keep & _ & _ & _ & _ & Hout & Hin & Hsel & _); [reflexivity|].
    exists corrected, keep. split; [|split; [|exact Hsel]].
    + apply (Hout 0%nat [J 150 150 2; J 150 150 2; J 150 150 2]); [reflexivity|].
      repeat constructor; right; left; reflexivity.
    + apply (Hin eq_refl 1%nat [J 0 0 2; J 8 8 2] (J 8 8 2));
        [reflexivity | | | reflexivity].
      * apply elem_of_cons; right. apply elem_of_cons; left. reflexivity.
      * intros [Ho|[Ho|[Ho|Ho]]]; discriminate Ho.
  - destruct (out_of_frame_joints_hidden 0 out_of_frame_instance _ _ _ Ht
                filter_out_of_frame_instance)
      as (corrected & keep & _ & _ & _ & _ & Hout & _ & Hsel & _).
    eexists _, corrected, keep.
    split; [exact filter_out_of_frame_instance|]. split; [|exact Hsel].
    apply (Hout 0%nat [J 150 150 2; J 150 150 2; J 150 150 2]); [reflexivity|].
    repeat constructor; right; left; reflexivity.
Defined.

Lemma well_shaped_out_of_frame_instance : well_shaped out_of_frame_instance.
Proof.
  repeat split; cbn; try (by intros ? [= <-]).
  repeat constructor. discriminate.
Defined.

Lemma filter_joints_survivors_witness :
  well_shaped out_of_frame_instance
  /\ Forall (fun row => exists j, j ∈ row /\ gtb (jvis j) zero = true)
            (joints large_instance)
  /\ exists s1, filter_joints 0 out_of_frame_instance = Ok s1
       /\ (joints s1 = [] ->
           is_crowd s1 = []
           /\ (forall a, areas s1 = Some a -> a = [])
           /\ (forall b, bboxes s1 = Some b -> b = [])).
Proof.
  split; [exact well_shaped_out_of_frame_instance|]. split.
  - apply (proj1 (filter_joints_survivors 100 three_instances) large_instance).
    reflexivity.
  - exact (proj2 (filter_joints_survivors 0 out_of_frame_instance)
                 well_shaped_out_of_frame_instance).
Defined.

(** ** A dataset of five samples and a pipeline that combines samples *)

Lemma counter_randbelow_in_range : randbelow_in_range counter_randbelow.
Proof.
  intros m w Hm. exists (Nat.modulo w m), (S w).
  split; [reflexivity | apply Nat.mod_upper_bound; lia].
Defined.

Lemma counter_comes_up (d : nat) : forall n v w : nat,
  ((w + d) mod n)%nat = v -> comes_up counter_randbelow d n v w.
Proof.
  induction d as [|d IH]; intros n v w Hv; cbn [comes_up counter_randbelow].
  - left. by rewrite Nat.add_0_r in Hv.
  - right. apply IH. by rewrite Nat.add_succ_comm.
Defined.

Lemma counter_every_value_comes_up : every_value_comes_up counter_randbelow.
Proof.
  intros n v w Hv. exists (v + (n - w mod n))%nat. apply counter_comes_up.
  pose proof (Nat.mod_upper_bound w n ltac:(lia)) as Hlt.
  pose proof (Nat.div_mod_eq w n) as Hw.
  replace (w + (v + (n - w mod n)))%nat with (v + (w / n + 1) * n)%nat by nia.
  rewrite Nat.Div0.mod_add. apply Nat.mod_small. lia.
Defined.

Example run_mix_brighten_mix :
  apply_transforms counter_randbelow 10%nat (five_samples mix_brighten_mix) 2
                   (pixel_sample 3) mix_brighten_mix 0%nat
  = Returns (pixel_sample 26) 2%nat.
Proof. reflexivity. Qed.



(** C1, counterexample: at the second [mix] of [[mix 1; brighten; mix 1]] the
    primary sample has been through [mix 1] and [brighten], while the
    transforms run on the additional samples are [[brighten]] alone. *)
Lemma additional_samples_miss_earlier_mix :
  exists s1 w1,
    for_each counter_randbelow 10%nat (five_samples mix_brighten_mix)
             (apply_transforms counter_randbelow 10%nat (five_samples mix_brighten_mix) 1)
             [mix 1; brighten] (pixel_sample 3, []) 0%nat
    = Returns (s1, [brighten]) w1
    /\ [brighten] <> [mix 1; brighten].
Proof.
  exists (pixel_sample 14), 1%nat. split; [reflexivity | discriminate].
Qed.


Lemma additional_samples_intermediate_state_witness :
  plain (mix 1) = false
  /\ for_each counter_randbelow 10%nat (five_samples mix_brighten_mix)
             (apply_transforms counter_randbelow 10%nat (five_samples mix_brighten_mix) 1)
             [mix 1; brighten] (pixel_sample 3, []) 0%nat
     = Returns (pixel_sample 14, [brighten]) 1%nat
  /\ [brighten] = plain_only [mix 1; brighten].
Proof.
  split; [reflexivity|]. split; [reflexivity|].
  apply (additional_samples_intermediate_state counter_randbelow 10%nat
           (five_samples mix_brighten_mix) 0%nat (pixel_sample 3)
           [mix 1; brighten] (mix 1) [] 0%nat (pixel_sample 14) [brighten] 1%nat);
    reflexivity.
Defined.


(** A transform that asks for six additional samples of a dataset of five. *)
Example getitem_six_of_five :
  getitem counter_randbelow 10%nat (five_samples [mix 6]) 2 2%nat 0%nat = Raises ValueError.
Proof. reflexivity. Qed.

Example draw_three_of_five :
  random_sample counter_randbelow 10%nat 5 3 2%nat = Returns [2; 3; 1]%nat 5%nat.
Proof. reflexivity. Qed.

(** Two indexes of 22, which is one more than the pool admits: the second
    draw is again taken below 22, not below 21. *)
Example draw_two_of_22 :
  random_sample counter_randbelow 10%nat 22 2 21%nat = Returns [21; 0]%nat 23%nat.
Proof. vm_compute. reflexivity. Qed.


(** A position that was selected before is drawn again. *)
Example redraw_on_collision :
  random_sample stutter_randbelow 10%nat 30 2 0%nat = Returns [0; 1]%nat 3%nat.
Proof. vm_compute. reflexivity. Qed.

Example too_few_draws :
  random_sample stutter_randbelow 1%nat 30 2 0%nat = OutOfDraws.
Proof. vm_compute. reflexivity. Qed.

(** The pool needs no redraw, even with a generator that is stuck. *)
Example stuck_generator_pool :
  random_sample stuck_randbelow 0%nat 5 2 0%nat = Returns [0; 4]%nat 2%nat.
Proof. reflexivity. Qed.

Lemma stuck_redraw (d : nat) : forall w : nat,
  redraw stuck_randbelow d 30 ({[0%nat]} ∪ ∅) w = OutOfDraws.
Proof.
  induction d as [|d IH]; intros w; [reflexivity|].
  cbn [redraw]. unfold mbind, M_bind, bind, perform, stuck_randbelow.
  destruct (decide (0%nat ∈ ({[0%nat]} ∪ ∅ : gset nat))) as [_|Hnot]; [apply IH|].
  exfalso. apply Hnot, elem_of_union. left. by apply elem_of_singleton.
Qed.

(** Beyond the pool, a generator that is stuck never completes the sample,
    however many draws are allowed. *)
Example stuck_generator_set (d : nat) :
  random_sample stuck_randbelow d 30 2 0%nat = OutOfDraws.
Proof.
  change (random_sample stuck_randbelow d 30 2 0%nat)
    with (set_draw stuck_randbelow d 2 30 ∅ 0%nat).
  destruct d as [|d]; [reflexivity|]. cbn [set_draw].
  assert (Hfirst : redraw stuck_randbelow (S d) 30 ∅ 0%nat = Returns 0%nat 1%nat).
  { cbn [redraw]. unfold mbind, M_bind, bind, perform, stuck_randbelow.
    destruct (decide (0%nat ∈ (∅ : gset nat))) as [Hin|_]; [|reflexivity].
    by apply not_elem_of_empty in Hin. }
  rewrite (RunFacts.bind_returns _ _ _ _ _ Hfirst).
  rewrite (RunFacts.bind_returns _ _ _ 0%nat 1%nat) by reflexivity.
  unfold mbind, M_bind, bind. by rewrite stuck_redraw.
Qed.


(** ** Colour defaults *)

(** One edge link and an explicitly empty list of edge colours: the dataset
    holds one generated colour. *)
Example empty_edge_colors_not_stored :
  exists ds,
    init grey_mapping (fun _ w => Ok (tt, w)) [brighten] 0 17 [(0, 1)%nat]
         (ColorsList []) ColorsNone 5%nat load_pixel = Ok ds
    /\ edge_colors ds = ColorsList [(128, 128, 128)]
    /\ edge_colors ds <> ColorsList [].
Proof. eexists. split; [reflexivity|]. split; [reflexivity | discriminate]. Qed.

(** Two colours passed as an array: the test of the truth value raises. *)
Example array_edge_colors_raise :
  init grey_mapping (fun _ w => Ok (tt, w)) [brighten] 0 17 [(0, 1)%nat]
       (ColorsArray [(255, 0, 0); (0, 255, 0)]) ColorsNone 5%nat load_pixel
  = Raise ValueError.
Proof. reflexivity. Qed.

(** ** Batches *)

Example collate_batch_ab :
  KeypointsCollate_call stack stack batch_ab
  = Ok ([1; 2]%nat, [1; 2]%nat,
        <["gt_joints" := [[1; 2]; [3]]%nat]> (<["gt_areas" := [[10; 20]; [30]]%nat]> ∅)).
Proof. vm_compute. reflexivity. Qed.

Example collate_batch_ac : KeypointsCollate_call stack stack batch_ac = Raise KeyError.
Proof. vm_compute. reflexivity. Qed.

Example collate_batch_dc :
  KeypointsCollate_call stack stack batch_dc
  = Ok ([4; 3]%nat, [4; 3]%nat, <["gt_areas" := [[50]; [40]]%nat]> ∅).
Proof. vm_compute. reflexivity. Qed.

Lemma same_keys_ab : forall d, d ∈ map snd batch_ab -> dom d = dom (snd (1, 1, extras_a)%nat).
Proof.
  intros d Hd. cbn in Hd.
  apply elem_of_cons in Hd as [->|Hd]; [reflexivity|].
  apply elem_of_cons in Hd as [->|Hd]; [|by apply elem_of_nil in Hd].
  vm_compute. reflexivity.
Defined.

Lemma collate_extras_witness :
  (forall d, d ∈ map snd batch_ab -> dom d = dom (snd (1, 1, extras_a)%nat))
  /\ exists ex,
       transpose (map snd batch_ab) = Ok ex
       /\ dom ex = dom extras_a
       /\ KeypointsCollate_call stack stack batch_ab = Ok ([1; 2]%nat, [1; 2]%nat, ex).
Proof.
  split; [exact same_keys_ab|].
  destruct (collate_extras stack stack (1, 1, extras_a)%nat [(2, 2, extras_b)%nat]
              same_keys_ab) as (ex & Hex & Hdom & _ & Hcall & _).
  exists ex. split; [exact Hex|]. split; [exact Hdom|].
  apply Hcall; reflexivity.
Defined.

Lemma collate_key_set_witness :
  (3, 3, extras_c)%nat ∈ [(3, 3, extras_c)%nat]
  /\ is_Some (extras_a !! "gt_joints")
  /\ extras_c !! "gt_joints" = None
  /\ KeypointsCollate_call stack stack batch_ac = Raise KeyError
  /\ dom (<["gt_areas" := [[50]; [40]]%nat]> (∅ : gmap string (list (list nat))))
     = dom extras_d.
Proof.
  assert (Hin : (3, 3, extras_c)%nat ∈ [(3, 3, extras_c)%nat])
    by (apply elem_of_cons; left; reflexivity).
  assert (Hsome : is_Some (extras_a !! "gt_joints")) by (eexists; reflexivity).
  split; [exact Hin|]. split; [exact Hsome|]. split; [reflexivity|]. split.
  - apply (proj1 (proj2 (collate_key_set stack stack (1, 1, extras_a)%nat
                           [(3, 3, extras_c)%nat]))
                 (3, 3, extras_c)%nat "gt_joints" Hin Hsome).
    reflexivity.
  - apply (proj1 (collate_key_set stack stack (4, 4, extras_d)%nat [(3, 3, extras_c)%nat])
                 ([4; 3]%nat, [4; 3]%nat, <["gt_areas" := [[50]; [40]]%nat]> ∅)
                 collate_batch_dc).
Defined.

End Examples.

(** * Further properties *)

(** ** More on boolean masks *)

Module MaskMore.
Import Keypoints.

Section Select.
Context {A B : Type}.
Implicit Types (m : list bool) (l : list A) (k : list B).

Lemma select_sublist m l : select m l `sublist_of` l.
Proof.
  revert l; induction m as [|b m IH]; intros [|a l]; cbn; try apply sublist_nil_l.
  destruct b; [apply sublist_skip | apply sublist_cons]; apply IH.
Qed.

Lemma select_zip m l k : zip (select m l) (select m k) = select m (zip l k).
Proof.
  revert l k; induction m as [|b m IH]; intros [|a l] [|a' k]; cbn; try done.
  - destruct b; [done|]. by destruct (select m l).
  - destruct b; cbn; by rewrite IH.
Qed.

(** A mask that implies another selects a sub-list of what the other
    selects. *)
Lemma select_mono m2 m1 l :
  Forall2 (fun b2 b1 => b2 = true -> b1 = true) m2 m1 ->
  select m2 l `sublist_of` select m1 l.
Proof.
  intros Hm; revert l; induction Hm as [|b2 b1 m2 m1 Hb _ IH]; intros [|a l]; cbn;
    try apply sublist_nil_l.
  destruct b2.
  - rewrite Hb by done. apply sublist_skip, IH.
  - destruct b1; [apply sublist_cons|]; apply IH.
Qed.

Lemma select_length_le m l : length (select m l) <= length l.
Proof. apply sublist_length, select_sublist. Qed.

End Select.

Lemma bool_index_mismatch {A} (arr : list A) m :
  length m <> length arr -> bool_index arr m = Raise IndexError.
Proof. intros Hl. unfold bool_index. by destruct (Nat.eqb_spec (length m) (length arr)). Qed.

End MaskMore.

(** ** More on [filter_joints] and [compute_area] *)

Module FilterMore.
Import Keypoints MaskFacts MaskMore FilterSpec FilterFacts.

Section Facts.
Context {T : Type} `{Scalar T}.
Implicit Types (s : @PoseEstimationSample T) (j : @Joint T).
Implicit Types (row : list (@Joint T)) (J : list (list (@Joint T))) (t : T).

(** X1: [filter_joints] returns only for a sample whose [is_crowd], [areas]
    and [bboxes] have one entry per instance; with a threshold that is not
    positive, an [is_crowd] of another length raises [IndexError]. *)
Theorem filter_joints_checks_shapes t s :
  (forall s1, filter_joints t s = Ok s1 ->
     length (is_crowd s) = length (joints s)
     /\ (forall a, areas s = Some a -> length a = length (joints s))
     /\ (forall b, bboxes s = Some b -> length b = length (joints s)))
  /\ (gtb t zero = false -> length (is_crowd s) <> length (joints s) ->
      filter_joints t s = Raise IndexError).
Proof.
  split.
  - intros s1 (keep & Hmask & Hc & Ha & Hb & _)%filter_joints_ok.
    pose proof (area_mask_length _ _ _ _ _ Hmask) as Hlen.
    rewrite length_map, hidden_joints_length in Hlen.
    split; [congruence|]. split.
    + intros a Hs. rewrite <- (Ha a Hs). done.
    + intros b Hs. rewrite <- (Hb b Hs). done.
  - intros Ht Hne. unfold filter_joints.
    destruct (frame_size (image s)) as [rows cols].
    rewrite keep_mask_visible. unfold area_mask. rewrite Ht. cbn.
    rewrite (proj2 (bool_index_ok _ _ _) (conj (length_map _ _) eq_refl)). cbn.
    rewrite bool_index_mismatch; [done|].
    unfold hide_outside. rewrite !length_map. congruence.
Qed.

Lemma hide_outside_rows rows cols J :
  Forall (fun row => row <> []) J -> Forall (fun row => row <> []) (hide_outside rows cols J).
Proof.
  unfold hide_outside. induction 1 as [|row J Hrow _ IH]; cbn; constructor; [|done].
  by destruct row.
Qed.

(** X2: in the sample that [filter_joints] returns, [is_crowd], [areas] and
    [bboxes] again have one entry per instance; there are no more instances
    than before, an optional array is present exactly when it was, and a
    well-shaped sample stays well-shaped. *)
Theorem filter_joints_keeps_shapes t s s1 :
  filter_joints t s = Ok s1 ->
  length (is_crowd s1) = length (joints s1)
  /\ (forall a, areas s1 = Some a -> length a = length (joints s1))
  /\ (forall b, bboxes s1 = Some b -> length b = length (joints s1))
  /\ length (joints s1) <= length (joints s)
  /\ (areas s1 = None <-> areas s = None)
  /\ (bboxes s1 = None <-> bboxes s = None)
  /\ (well_shaped s -> well_shaped s1).
Proof.
  intros (keep & Hmask & Hc & Ha & Hb & ->)%filter_joints_ok.
  pose proof (area_mask_length _ _ _ _ _ Hmask) as Hlen. rewrite length_map in Hlen.
  cbn [joints is_crowd areas bboxes].
  assert (H1 : length (select keep (is_crowd s)) = length (select keep (hidden_joints s)))
    by (by apply select_length).
  assert (H2 : forall a, select keep <$> areas s = Some a ->
                 length a = length (select keep (hidden_joints s))).
  { destruct (areas s) as [a|]; cbn; [|done]. intros ? [= <-].
    apply select_length; [by apply Ha | done]. }
  assert (H3 : forall b, select keep <$> bboxes s = Some b ->
                 length b = length (select keep (hidden_joints s))).
  { destruct (bboxes s) as [b|]; cbn; [|done]. intros ? [= <-].
    apply select_length; [by apply Hb | done]. }
  split; [done|]. split; [done|]. split; [done|]. split; [|split; [|split]].
  - rewrite <- (hidden_joints_length s). apply select_length_le.
  - by destruct (areas s).
  - by destruct (bboxes s).
  - intros (_ & _ & _ & Hrows). repeat split; try done. cbn [joints].
    apply Forall_forall. intros row Hrow%elem_of_select. revert row Hrow.
    apply Forall_forall. by apply hide_outside_rows.
Qed.

(** X3: [filter_joints] keeps the surviving instances in their order and
    keeps the per-instance arrays aligned: the joints of the result, paired
    with its [is_crowd] flags (and with its areas, when present), are a
    sub-list of the corrected input joints paired with the input's.  The
    image, the mask and the additional samples are passed through. *)
Theorem filter_joints_keeps_order t s s1 :
  filter_joints t s = Ok s1 ->
  joints s1 `sublist_of` hidden_joints s
  /\ zip (joints s1) (is_crowd s1) `sublist_of` zip (hidden_joints s) (is_crowd s)
  /\ (forall a a1, areas s = Some a -> areas s1 = Some a1 ->
        zip (joints s1) a1 `sublist_of` zip (hidden_joints s) a)
  /\ (forall b b1, bboxes s = Some b -> bboxes s1 = Some b1 ->
        zip (joints s1) b1 `sublist_of` zip (hidden_joints s) b)
  /\ image s1 = image s /\ mask s1 = mask s
  /\ additional_samples s1 = additional_samples s.
Proof.
  intros (keep & _ & _ & _ & _ & ->)%filter_joints_ok.
  cbn [joints is_crowd areas bboxes image mask additional_samples].
  split; [apply select_sublist|].
  split; [rewrite select_zip; apply select_sublist|].
  split; [|split; [|done]].
  - intros a a1 -> [= <-]. rewrite select_zip. apply select_sublist.
  - intros b b1 -> [= <-]. rewrite select_zip. apply select_sublist.
Qed.

(** X5: [compute_area] returns one area per instance when every instance has
    a joint, also for no instance at all, and raises [ValueError] as soon as
    one instance has none. *)
Theorem compute_area_cases J :
  (Forall (fun row => row <> []) J ->
     exists ar, compute_area J = Ok ar /\ length ar = length J)
  /\ (Exists (fun row => row = []) J -> compute_area J = Raise ValueError).
Proof.
  rewrite compute_area_rows. split.
  - intros [ar Har]%bbox_area_total. exists ar. split; [done|].
    by apply traverse_ok_length in Har.
  - intros (row & Hin & ->)%Exists_exists.
    destruct (traverse bbox_area J) as [ar|e] eqn:Htr.
    + apply list_elem_of_lookup in Hin as [i Hi].
      by destruct (traverse_ok_lookup _ _ _ _ _ Htr Hi) as (y & _ & Hy).
    + apply traverse_raise_inv in Htr as (row & _ & Hrow).
      destruct row; [by injection Hrow as <- | done].
Qed.

End Facts.

(** *** Integer coordinates *)

Lemma area_mask_threshold_mono (t1 t2 : Z) (V : list bool) (ar : list Z) :
  (t1 <= t2)%Z ->
  Forall2 (fun b2 b1 => b2 = true -> b1 = true)
          (zip_with andb V (map (fun x => gtb x t2) ar))
          (zip_with andb V (map (fun x => gtb x t1) ar)).
Proof.
  intros Ht. revert ar; induction V as [|v V IH]; intros [|a ar]; cbn; constructor;
    [|apply IH].
  unfold gtb; cbn. intros [-> Ha%Z.ltb_lt]%andb_true_iff. cbn. apply Z.ltb_lt. lia.
Qed.

(** X4: on [int64] arrays, raising the threshold never brings an
    instance back: what survives the larger threshold is a sub-list of what
    survives the smaller one. *)
Theorem filter_joints_threshold_mono (t1 t2 : Z) (s s1 s2 : @PoseEstimationSample Z) :
  (t1 <= t2)%Z ->
  filter_joints t1 s = Ok s1 -> filter_joints t2 s = Ok s2 ->
  joints s2 `sublist_of` joints s1
  /\ is_crowd s2 `sublist_of` is_crowd s1.
Proof.
  intros Ht (k1 & Hm1 & _ & Ha1 & _ & ->)%filter_joints_ok
            (k2 & Hm2 & _ & Ha2 & _ & ->)%filter_joints_ok.
  cbn [joints is_crowd].
  assert (Himp : Forall2 (fun b2 b1 => b2 = true -> b1 = true) k2 k1).
  { destruct (gtb t2 zero) eqn:Ht2.
    - destruct (area_mask_conjunction _ _ _ _ Hm2 Ha2 Ht2) as (ar & Har & Hlar & ->).
      destruct (gtb t1 zero) eqn:Ht1.
      + destruct (area_mask_conjunction _ _ _ _ Hm1 Ha1 Ht1) as (ar' & Har' & _ & ->).
        assert (ar' = ar) as -> by congruence.
        by apply area_mask_threshold_mono.
      + destruct (area_mask_inv _ _ _ _ _ Hm1) as [[_ ->]|[Hc _]]; [|congruence].
        apply and_implies_left. by rewrite !length_map.
    - assert (gtb t1 zero = false) as Ht1.
      { revert Ht2. unfold gtb, zero; cbn. rewrite !Z.ltb_ge. lia. }
      destruct (area_mask_inv _ _ _ _ _ Hm1) as [[_ ->]|[Hc _]]; [|congruence].
      destruct (area_mask_inv _ _ _ _ _ Hm2) as [[_ ->]|[Hc _]]; [|congruence].
      apply Forall_Forall2_diag, Forall_forall; auto. }
  split; by apply select_mono.
Qed.

Lemma reduced_within (b x : Z) (l : list Z) :
  (- b <= x <= b)%Z -> Forall (fun y => (- b <= y <= b)%Z) l ->
  (- b <= foldl Z.min x l <= foldl Z.max x l)%Z /\ (foldl Z.max x l <= b)%Z.
Proof.
  intros Hx Hl.
  assert (Hall : Forall (fun y => (- b <= y <= b)%Z) (x :: l)) by by constructor.
  pose proof (proj1 (Forall_forall _ _) Hall _ (NumericFacts.foldl_max_member l x)).
  pose proof (proj1 (Forall_forall _ _) Hall _ (NumericFacts.foldl_min_member l x)).
  destruct (NumericFacts.foldl_max_upper l x) as [? _].
  destruct (NumericFacts.foldl_min_lower l x) as [? _]. cbn in *. lia.
Qed.

Lemma bbox_area_exact (row : list (@Joint Z)) :
  row <> [] -> coordinates_within (2 ^ 30) row ->
  bbox_area row = Ok (exact_area row) /\ (0 <= exact_area row)%Z.
Proof.
  destruct row as [|j rest]; [done|]. intros _ Hrow.
  apply Forall_cons in Hrow as [[Hx Hy] Hrest].
  destruct (reduced_within (2 ^ 30) (jx j) (map jx rest) Hx) as [Hx1 Hx2].
  { apply Forall_map. eapply Forall_impl; [exact Hrest|]. by intros ? [? _]. }
  destruct (reduced_within (2 ^ 30) (jy j) (map jy rest) Hy) as [Hy1 Hy2].
  { apply Forall_map. eapply Forall_impl; [exact Hrest|]. by intros ? [_ ?]. }
  cbn [bbox_area exact_area].
  set (max_x := foldl Z.max (jx j) (map jx rest)) in *.
  set (min_x := foldl Z.min (jx j) (map jx rest)) in *.
  set (max_y := foldl Z.max (jy j) (map jy rest)) in *.
  set (min_y := foldl Z.min (jy j) (map jy rest)) in *.
  change (2 ^ 30)%Z with 1073741824%Z in *.
  assert (Hw : (0 <= max_x - min_x <= 2147483648)%Z) by lia.
  assert (Hh : (0 <= max_y - min_y <= 2147483648)%Z) by lia.
  assert (Hwh : (0 <= (max_x - min_x) * (max_y - min_y) <= 4611686018427387904)%Z)
    by nia.
  split; [|lia]. cbn [smax smin sub mul int64_scalar]. f_equal.
  rewrite !NumericFacts.wrap64_small; [done | | |];
    unfold int64; change (2 ^ 63)%Z with 9223372036854775808%Z;
    rewrite ?NumericFacts.wrap64_small; try lia;
    unfold int64; change (2 ^ 63)%Z with 9223372036854775808%Z; lia.
Qed.

(** X6: on [int64] arrays whose coordinates are at most [2 ^ 30] in absolute
    value, [compute_area] does not wrap around: it returns the exact areas,
    which are non-negative.  Whatever the coordinates, the area of an
    instance with a single joint is 0. *)
Theorem compute_area_nonnegative (J : list (list (@Joint Z))) (ar : list Z) :
  compute_area J = Ok ar ->
  (Forall (coordinates_within (2 ^ 30)) J ->
     ar = map exact_area J /\ Forall (fun a => (0 <= a)%Z) ar)
  /\ forall i j, J !! i = Some [j] -> ar !! i = Some 0%Z.
Proof.
  rewrite compute_area_rows. intros Har. split.
  - intros Hall. revert ar Har.
    induction Hall as [|row J Hrow _ IH]; intros ar; cbn [traverse map].
    + intros [= <-]. by split.
    + intros (a & Ha & (rest & Hrest & [= <-])%rbind_ok)%rbind_ok.
      destruct (IH rest Hrest) as [-> Hnonneg].
      destruct (bbox_area_exact row) as [Hexact Hpos]; [by destruct row | done|].
      rewrite Hexact in Ha. injection Ha as <-. split; [done | by constructor].
  - intros i j Hi.
    destruct (traverse_ok_lookup _ _ _ _ _ Har Hi) as (a & Ha & Hrow).
    cbn in Hrow. injection Hrow as <-. rewrite Ha. f_equal.
    by rewrite !Z.sub_diag.
Qed.

End FilterMore.

(** ** More on [random.sample] *)

Module SamplingMore.
Import Keypoints RunFacts PipelineSpec SamplingFacts.

Section Sampling.
Context {World : Type}.
Variable randbelow : nat -> Ext World nat.
Variable draws : nat.

Lemma pool_draw_length k : forall n (pool : list nat) w idxs w',
  pool_draw randbelow k n pool w = Returns idxs w' -> length idxs = k.
Proof.
  induction k as [|k IH]; intros n pool w idxs w'; cbn [pool_draw].
  - unfold ret. by intros [= <- _].
  - intros (j & w1 & _ & Hrest)%bind_inv.
    destruct (pool !! j); [|done]. destruct (pool !! (n - 1)); [|done].
    apply bind_inv in Hrest as (rest & w2 & Hrest & [= <- _]).
    cbn. f_equal. by eapply IH.
Qed.

Lemma random_sample_length n k w idxs w' :
  random_sample randbelow draws n k w = Returns idxs w' -> Z.of_nat (length idxs) = k.
Proof.
  unfold random_sample.
  destruct (Z.leb_spec 0 k), (Z.leb_spec k (Z.of_nat n)); cbn; try done.
  destruct (n <=? _).
  - intros Hd%pool_draw_length. lia.
  - intros [Hlen _]%set_draw_sound. lia.
Qed.

(** X12: asking for as many indexes as the dataset has returns every index
    exactly once: the result is a permutation of [range(n)].  Such a sample
    is always drawn from the pool, so no draw is repeated. *)
Theorem random_sample_all n w :
  randbelow_in_range randbelow ->
  exists idxs w',
    random_sample randbelow draws n (Z.of_nat n) w = Returns idxs w'
    /\ idxs ≡ₚ seq 0 n.
Proof.
  intros Hrb.
  rewrite random_sample_pool by (rewrite ?Nat2Z.id; first [lia | apply setsize_all]).
  destruct (pool_sample randbelow n (Z.of_nat n) w Hrb)
    as (idxs & w' & Hs & Hlen & Hnd & Hrange); [lia|].
  exists idxs, w'. split; [done|].
  apply submseteq_length_Permutation.
  - apply NoDup_submseteq; [done|]. intros i Hi%Hrange. apply elem_of_seq. lia.
  - rewrite length_seq. lia.
Qed.

End Sampling.
End SamplingMore.

(** ** More on [apply_transforms] and [__getitem__] *)

Module PipelineMore.
Import Keypoints RunFacts PipelineSpec SamplingFacts SamplingMore PipelineFacts.
Import MaskFacts FilterSpec FilterFacts.

Section Pipeline.
Context {T : Type} `{Scalar T} {World Targets : Type}.
Variable randbelow : nat -> Ext World nat.
Variable draws : nat.
Variable self : BaseKeypointsDataset T World Targets.

Local Abbreviation Sample := (@PoseEstimationSample T).
Local Abbreviation Transform := (KeypointTransform T World).
Local Abbreviation Rec := (Sample -> list Transform -> M World Sample).

Implicit Types (s : Sample) (t : Transform) (ts pre post applied : list Transform).
Implicit Types (w : World) (rec : Rec).

Lemma perform_inv {A} (e : Ext World A) w a w' :
  perform e w = Returns a w' -> e w = Ok (a, w').
Proof. unfold perform. destruct (e w) as [[a0 w0]|x]; [|done]. by intros [= -> ->]. Qed.

Lemma lift_inv {A} (r : result A) w a w' :
  lift r w = Returns a w' -> r = Ok a /\ w' = w.
Proof. destruct r as [a0|e]; cbn; unfold ret, raise; [|done]. by intros [= -> ->]. Qed.

Lemma lift_terminates {A} (r : result A) w : @lift World A r w <> OutOfFuel.
Proof. by destruct r. Qed.

Lemma traverseM_length {A B} (f : A -> M World B) xs : forall w ys w',
  traverseM f xs w = Returns ys w' -> length ys = length xs.
Proof.
  induction xs as [|x xs IH]; intros w ys w'; cbn [traverseM].
  - unfold ret. by intros [= <- _].
  - intros (b & w1 & _ & (bs & w2 & Hbs & [= <- _])%bind_inv)%bind_inv.
    cbn. f_equal. by eapply IH.
Qed.

(** X10: a transform with a non-zero count is called on the primary sample
    carrying exactly that many additional samples, its other fields as they
    were; [applied_transforms_so_far] is left as it was. *)
Theorem combining_transform_input rec s applied t w s2 applied2 w2 :
  plain t = false ->
  loop_body randbelow draws self rec (s, applied) t w = Returns (s2, applied2) w2 ->
  applied2 = applied
  /\ exists l w1,
       Z.of_nat (length l) = additional_samples_count t
       /\ call t (set_additional_samples s l) w1 = Ok (s2, w2)
       /\ additional_samples (set_additional_samples s l) = Some l
       /\ image (set_additional_samples s l) = image s
       /\ joints (set_additional_samples s l) = joints s.
Proof.
  intros Ht. unfold loop_body. unfold plain in Ht. rewrite Ht. cbn [fst snd].
  intros (s1 & w1 & Hatt & (s2' & w2' & Hcall%perform_inv & [= <- <- <-])%bind_inv)%bind_inv.
  split; [done|]. unfold attach_additional in Hatt.
  apply bind_inv in Hatt as (idxs & wa & Hidx%random_sample_length & Hatt).
  apply bind_inv in Hatt as (loaded & wb & Hload%traverseM_length & Hatt).
  apply bind_inv in Hatt as (l & wc & Hl%traverseM_length & [= <- <-]).
  exists l, wc. split; [lia|]. split; [done|]. done.
Qed.

(** X11: a negative [additional_samples_count] is not zero, so the transform
    is treated as one that needs additional samples, and drawing them raises
    [ValueError]. *)
Theorem negative_count_raises rec s applied t w :
  (additional_samples_count t < 0)%Z ->
  loop_body randbelow draws self rec (s, applied) t w = Raises ValueError.
Proof.
  intros Hk. unfold loop_body.
  destruct (Z.eqb_spec (additional_samples_count t) 0) as [Hz|_]; [lia|].
  apply bind_raises. unfold attach_additional.
  apply bind_raises, random_sample_too_many. by left.
Qed.

Lemma apply_transforms_nil fuel s w :
  apply_transforms randbelow draws self (S fuel) s [] w = Returns s w.
Proof. done. Qed.

(** X9: transforms that need no additional samples compose in order: a list
    of them is applied one after the other, and when they end a transform
    list they can be run separately on the result of the part before them. *)
Theorem apply_transforms_composes fuel s pre post w :
  Forall (fun t => plain t = true) post ->
  apply_transforms randbelow draws self (S fuel) s (pre ++ post) w
  = (s' ← apply_transforms randbelow draws self (S fuel) s pre; run_in_order post s') w
  /\ apply_transforms randbelow draws self (S fuel) s post w = run_in_order post s w.
Proof.
  intros Hpost. split; [|by apply apply_transforms_plain].
  cbn [apply_transforms].
  etrans; [apply bind_ext; [apply for_each_app | reflexivity]|].
  rewrite !bind_assoc. apply bind_ext; [done|]. intros [s1 applied] w1.
  rewrite ret_bind. cbn [fst].
  etrans; [apply bind_ext; [by apply for_each_plain | reflexivity]|].
  unfold mbind, M_bind, bind, ret. by destruct (run_in_order post s1 w1).
Qed.

(** *** [__getitem__] *)

Lemma filter_joints_rows_visible (t : T) s s1 :
  filter_joints t s = Ok s1 ->
  Forall (fun row => exists j, j ∈ row /\ gtb (jvis j) zero = true) (joints s1)
  /\ length (is_crowd s1) = length (joints s1)
  /\ image s1 = image s.
Proof.
  intros (keep & Hmask & Hc & _ & _ & ->)%filter_joints_ok.
  cbn [joints is_crowd image]. split; [|split; [|done]].
  - apply (select_Forall2 (fun _ _ => True)).
    eapply Forall2_impl; [by eapply keep_implies_visible|].
    cbn. intros b row Hb Htrue. by apply row_visible_true, Hb.
  - apply area_mask_length in Hmask. rewrite length_map in Hmask.
    by apply select_length.
Qed.

(** X7: what [__getitem__] returns.  The sample is loaded, transformed and
    filtered, in this order; the target generator is called on the filtered
    sample; the image returned is the image of the transformed sample; the
    extras dict has exactly the keys [gt_joints], [gt_bboxes], [gt_areas] and
    [gt_is_crowd], bound to the arrays of the filtered sample, so every
    instance of [gt_joints] has a joint with visibility > 0 and [gt_is_crowd]
    has one flag per instance. *)
Theorem getitem_returns fuel index w img targets ex w' :
  getitem randbelow draws self fuel index w = Returns (img, targets, ex) w' ->
  exists s0 w0 s1 w1 s2,
    load_sample self index w = Ok (s0, w0)
    /\ apply_transforms randbelow draws self fuel s0 (transforms self) w0 = Returns s1 w1
    /\ filter_joints (min_instance_area self) s1 = Ok s2
    /\ target_generator self s2 w1 = Ok (targets, w')
    /\ img = image s1
    /\ ex !! "gt_joints" = Some (GtJoints (joints s2))
    /\ ex !! "gt_bboxes" = Some (GtBBoxes (bboxes s2))
    /\ ex !! "gt_areas" = Some (GtAreas (areas s2))
    /\ ex !! "gt_is_crowd" = Some (GtIsCrowd (is_crowd s2))
    /\ dom ex = {["gt_joints"; "gt_bboxes"; "gt_areas"; "gt_is_crowd"]}
    /\ Forall (fun row => exists j, j ∈ row /\ gtb (jvis j) zero = true) (joints s2)
    /\ length (is_crowd s2) = length (joints s2).
Proof.
  unfold getitem.
  intros (s0 & w0 & Hload%perform_inv
          & (s1 & w1 & Happly
          & (s2 & w2 & [Hfilter ->]%lift_inv
          & (tg & w3 & Htg%perform_inv & [= <- <- <- <-])%bind_inv)%bind_inv)%bind_inv)%bind_inv.
  destruct (filter_joints_rows_visible _ _ _ Hfilter) as (Hvis & Hlen & Himg).
  exists s0, w0, s1, w1, s2.
  split; [done|]. split; [done|]. split; [done|]. split; [done|].
  split; [done|].
  split; [by simplify_map_eq|]. split; [by simplify_map_eq|].
  split; [by simplify_map_eq|]. split; [by simplify_map_eq|].
  split; [|done].
  rewrite !dom_insert_L, dom_empty_L. set_solver.
Qed.

End Pipeline.

Section Termination.
Context {T : Type} `{Scalar T} {World Targets : Type}.
Variable randbelow : nat -> Ext World nat.
Variable self : BaseKeypointsDataset T World Targets.

Implicit Types (w : World).

Lemma apply_transforms_enough_fuel draws fuel s ts w :
  apply_transforms randbelow draws self (S (S fuel)) s ts w <> OutOfFuel.
Proof.
  rewrite apply_transforms_flat.
  apply bind_terminates; [apply for_each_flat_terminates | done].
Qed.

Lemma lift_terminated {A} (r : result A) w : terminated (@lift World A r w).
Proof. by destruct r. Qed.

(** X8: [__getitem__] terminates: with room for two nested calls of
    [apply_transforms] it never runs out of fuel, and more room does not
    change what it returns or raises; with a generator that stays in range
    and avoids no value it returns or raises, given draws enough for the
    redraw loops of [random.sample]. *)
Theorem getitem_terminates draws fuel index w :
  2 <= fuel ->
  getitem randbelow draws self fuel index w <> OutOfFuel
  /\ getitem randbelow draws self fuel index w = getitem randbelow draws self 2 index w
  /\ (randbelow_in_range randbelow -> every_value_comes_up randbelow ->
      exists d0, forall d, d0 <= d ->
        terminated (getitem randbelow d self fuel index w)).
Proof.
  intros Hfuel. destruct fuel as [|[|fuel]]; [lia..|]. unfold getitem.
  split; [|split].
  - apply bind_terminates; [apply perform_terminates|]. intros s0 w0.
    apply bind_terminates; [apply apply_transforms_enough_fuel|]. intros s1 w1.
    apply bind_terminates; [apply lift_terminates|]. intros s2 w2.
    apply bind_terminates; [apply perform_terminates | done].
  - apply bind_ext; [done|]. intros s0 w0.
    apply bind_ext; [|done]. by rewrite !apply_transforms_flat.
  - intros Hrb Hup.
    destruct (perform (load_sample self index) w) as [s0 w0| | |] eqn:Hload.
    + destruct (apply_transforms_eventually randbelow self fuel s0 (transforms self)
                  w0 Hrb Hup) as [d0 Hd0].
      exists d0. intros d Hd. rewrite (bind_returns _ _ _ _ _ Hload).
      apply bind_terminated; [apply (Hd0 d Hd)|]. intros s1 w1 _.
      apply bind_terminated; [apply lift_terminated|]. intros s2 w2 _.
      apply bind_terminated; [apply perform_terminated | done].
    + exists 0. intros d _. by rewrite (bind_raises _ _ _ _ Hload).
    + by apply perform_terminates in Hload.
    + pose proof (perform_terminated (load_sample self index) w) as Ht.
      by rewrite Hload in Ht.
Qed.

End Termination.
End PipelineMore.

(** ** More on [KeypointsCollate] *)

Module CollateMore.
Import Collate CollateSpec CollateFacts.

Section Facts.
Context {Image Target V Images Targets : Type}.
Variable default_collate_images : list Image -> result Images.
Variable default_collate_targets : list Target -> result Targets.

Implicit Types (d first : gmap string V) (extras rest : list (gmap string V)).
Implicit Types (k : string) (col : list V).
Implicit Types (batch bs : list (Image * Target * gmap string V)).

Local Abbreviation images_of batch := (map (fun x => fst (fst x)) batch).
Local Abbreviation targets_of batch := (map (fun x => snd (fst x)) batch).

Lemma transpose_keys first rest ex d k :
  transpose (first :: rest) = Ok ex -> d ∈ rest -> is_Some (first !! k) ->
  is_Some (d !! k).
Proof.
  intros Hex Hd Hk. destruct (d !! k) as [v|] eqn:Hdk; [by eexists|].
  rewrite (transpose_missing first rest d k Hd Hk Hdk) in Hex. done.
Qed.

(** X13: [__call__] returns exactly when the batch is not empty, every later
    element's extras has every key of the first element's extras, and
    [default_collate] accepts the images and accepts the targets. *)
Theorem collate_returns_iff batch :
  (exists r,
      KeypointsCollate_call default_collate_images default_collate_targets
        batch = Ok r) <->
  exists b bs,
    batch = b :: bs
    /\ (forall x k, x ∈ bs -> is_Some (snd b !! k) -> is_Some (snd x !! k))
    /\ (exists imgs, default_collate_images (images_of batch) = Ok imgs)
    /\ (exists tgts, default_collate_targets (targets_of batch) = Ok tgts).
Proof.
  split.
  - intros [r Hr]. pose proof (collate_inv _ _ _ _ Hr) as Htr.
    destruct batch as [|b bs]; [done|]. exists b, bs. split; [done|].
    split.
    + intros x k Hx Hk. cbn [map] in Htr. eapply transpose_keys; [exact Htr| |done].
      apply list_elem_of_In, in_map, list_elem_of_In, Hx.
    + revert Hr. unfold KeypointsCollate_call.
      intros (ex & _ & (imgs & Hi & (tgts & Ht & _)%rbind_ok)%rbind_ok)%rbind_ok.
      eauto.
  - intros (b & bs & -> & Hkeys & [imgs Hi] & [tgts Ht]).
    destruct (transpose_total (snd b) (map snd bs)) as [ex Hex].
    { intros d k (x & Hx & <-)%elem_of_map_snd Hk. by apply Hkeys. }
    exists (imgs, tgts, ex). by apply collate_returns.
Qed.

(** X14: the errors of [__call__], in the order in which they arise: an empty
    batch raises [IndexError]; otherwise a missing key raises [KeyError];
    otherwise the error of [default_collate] on the images is raised, and
    only then the one on the targets.  There is no other error. *)
Theorem collate_errors batch :
  (batch = [] ->
   KeypointsCollate_call default_collate_images default_collate_targets
     batch = Raise IndexError)
  /\ (forall ex e, transpose (map snd batch) = Ok ex ->
        default_collate_images (images_of batch) = Raise e ->
        KeypointsCollate_call default_collate_images default_collate_targets
          batch = Raise e)
  /\ (forall ex imgs e, transpose (map snd batch) = Ok ex ->
        default_collate_images (images_of batch) = Ok imgs ->
        default_collate_targets (targets_of batch) = Raise e ->
        KeypointsCollate_call default_collate_images default_collate_targets
          batch = Raise e)
  /\ (forall e,
        KeypointsCollate_call default_collate_images default_collate_targets
          batch = Raise e ->
        (batch = [] /\ e = IndexError)
        \/ (batch <> [] /\ e = KeyError
            /\ transpose (map snd batch) = Raise KeyError)
        \/ default_collate_images (images_of batch) = Raise e
        \/ default_collate_targets (targets_of batch) = Raise e).
Proof.
  split; [by intros ->|]. split; [|split].
  - intros ex e Hex Hi. unfold KeypointsCollate_call. by rewrite Hex, Hi.
  - intros ex imgs e Hex Hi Ht. unfold KeypointsCollate_call. by rewrite Hex, Hi, Ht.
  - intros e. unfold KeypointsCollate_call.
    destruct (transpose (map snd batch)) as [ex|e'] eqn:Htr; cbn.
    + destruct (default_collate_images (images_of batch)) as [imgs|e1]; cbn;
        [|intros [= <-]; auto].
      destruct (default_collate_targets (targets_of batch)) as [tgts|e2]; cbn;
        [done | intros [= <-]; auto].
    + intros [= <-]. destruct batch as [|b bs]; [left; by injection Htr as <-|].
      right; left. split; [done|].
      assert (e' = KeyError) as ->; [|done].
      revert Htr. cbn [map transpose].
      destruct (traverse (item_of (snd b :: map snd bs)) (map_to_list (snd b)).*1)
        as [items|e''] eqn:Hit; cbn; [done|].
      intros [= <-]. by eapply items_raise.
Qed.

(** X15: nothing is lost in the batch extras.  Reading position [j] of every
    list gives back sample [j]'s values for the keys of the first element,
    and so its whole extras dict when it has the first element's key set. *)
Theorem transpose_round_trip (b : Image * Target * gmap string V) bs ex :
  transpose (map snd (b :: bs)) = Ok ex ->
  forall j x, (b :: bs) !! j = Some x ->
    (forall k, is_Some (snd b !! k) ->
       omap (fun col : list V => col !! j) ex !! k = snd x !! k)
    /\ (dom (snd x) = dom (snd b) ->
        omap (fun col : list V => col !! j) ex = snd x).
Proof.
  cbn [map]. intros Hex j x Hx.
  destruct (transpose_ok _ _ _ Hex) as [Hdom Hcols].
  assert (Hd : (snd b :: map snd bs) !! j = Some (snd x))
    by (by apply (lookup_map_Some snd (b :: bs))).
  assert (Hkey : forall k, is_Some (snd b !! k) ->
            omap (fun col : list V => col !! j) ex !! k = snd x !! k).
  { intros k Hk. rewrite lookup_omap.
    assert (is_Some (ex !! k)) as [col Hcol].
    { apply elem_of_dom. rewrite Hdom. by apply elem_of_dom. }
    rewrite Hcol. cbn. specialize (Hcols k col Hcol). unfold column_of in Hcols.
    destruct (Forall2_lookup_l _ _ _ _ _ Hcols Hd) as (v & -> & ->). done. }
  split; [exact Hkey|].
  intros Hsame. apply map_eq. intros k.
  destruct (snd b !! k) as [v|] eqn:Hbk; [apply Hkey; by rewrite Hbk|].
  rewrite lookup_omap.
  assert (ex !! k = None) as ->.
  { apply not_elem_of_dom. rewrite Hdom. by apply not_elem_of_dom. }
  cbn. symmetry. apply not_elem_of_dom. rewrite Hsame. by apply not_elem_of_dom.
Qed.

End Facts.
End CollateMore.

(** ** Further concrete runs *)

Module MoreExamples.
Import Keypoints FilterSpec PipelineSpec CollateSpec Instances MoreInstances.
Import FilterFacts SamplingFacts PipelineFacts Collate CollateFacts.
Import FilterMore SamplingMore PipelineMore CollateMore Examples.
Local Open Scope Z_scope.

Example filter_three_instances_50 : filter_joints 50 three_instances = Ok two_instances.
Proof. reflexivity. Qed.

Lemma filter_joints_checks_shapes_witness :
  (length (is_crowd three_instances) = length (joints three_instances))
  /\ gtb 0 zero = false
  /\ length (is_crowd missing_crowd_flag) <> length (joints missing_crowd_flag)
  /\ filter_joints 0 missing_crowd_flag = Raise IndexError.
Proof.
  split.
  { apply (proj1 (filter_joints_checks_shapes 100 three_instances) large_instance).
    reflexivity. }
  split; [reflexivity|]. split; [discriminate|].
  apply (proj2 (filter_joints_checks_shapes 0 missing_crowd_flag));
    [reflexivity | discriminate].
Defined.

Lemma filter_joints_keeps_shapes_witness :
  filter_joints 100 three_instances = Ok large_instance
  /\ length (is_crowd large_instance) = length (joints large_instance)
  /\ (length (joints large_instance) <= length (joints three_instances))%nat.
Proof.
  split; [reflexivity|].
  destruct (filter_joints_keeps_shapes 100 three_instances large_instance)
    as (Hc & _ & _ & Hle & _); [reflexivity|].
  split; [exact Hc | exact Hle].
Defined.

Lemma filter_joints_keeps_order_witness :
  filter_joints 50 three_instances = Ok two_instances
  /\ zip (joints two_instances) (is_crowd two_instances)
       `sublist_of` zip (hidden_joints three_instances) (is_crowd three_instances).
Proof.
  split; [reflexivity|].
  destruct (filter_joints_keeps_order 50 three_instances two_instances)
    as (_ & Hz & _); [reflexivity | exact Hz].
Defined.

Lemma filter_joints_threshold_mono_witness :
  50 <= 100
  /\ filter_joints 50 three_instances = Ok two_instances
  /\ filter_joints 100 three_instances = Ok large_instance
  /\ joints large_instance `sublist_of` joints two_instances.
Proof.
  split; [lia|]. split; [reflexivity|]. split; [reflexivity|].
  apply (filter_joints_threshold_mono 50 100 three_instances two_instances large_instance);
    [lia | reflexivity | reflexivity].
Defined.

Lemma compute_area_cases_witness :
  Forall (fun row => row <> []) (joints three_instances)
  /\ (exists ar, compute_area (joints three_instances) = Ok ar
                 /\ length ar = length (joints three_instances))
  /\ Exists (fun row => row = []) rows_with_empty
  /\ compute_area rows_with_empty = Raise ValueError.
Proof.
  assert (H1 : Forall (fun row : list (@Joint Z) => row <> []) (joints three_instances))
    by (repeat constructor; discriminate).
  assert (H2 : Exists (fun row : list (@Joint Z) => row = []) rows_with_empty)
    by (apply Exists_cons_tl, Exists_cons_hd; reflexivity).
  split; [exact H1|].
  split; [exact (proj1 (compute_area_cases (joints three_instances)) H1)|].
  split; [exact H2|].
  exact (proj2 (compute_area_cases rows_with_empty) H2).
Defined.

(** Beyond 31 bits the product wraps around. *)
Example compute_area_wraps :
  compute_area huge_instance = Ok [-2446744073709551616].
Proof. vm_compute. reflexivity. Qed.

Lemma compute_area_nonnegative_witness :
  compute_area (joints three_instances) = Ok [0; 64; 400]
  /\ Forall (coordinates_within (2 ^ 30)) (joints three_instances)
  /\ [0; 64; 400] = map exact_area (joints three_instances)
  /\ Forall (fun a => 0 <= a) [0; 64; 400].
Proof.
  assert (Hsmall : Forall (coordinates_within (2 ^ 30)) (joints three_instances)).
  { change (2 ^ 30) with 1073741824. repeat constructor; cbn; lia. }
  split; [reflexivity|]. split; [exact Hsmall|].
  apply (compute_area_nonnegative (joints three_instances) [0; 64; 400]);
    [reflexivity | exact Hsmall].
Defined.

Example getitem_mix_brighten_mix :
  getitem counter_randbelow 10%nat (five_samples mix_brighten_mix) 2 2%nat 0%nat
  = Returns (mkImage false (100, 100, 3)%nat [26], tt, no_instance_extras) 2%nat.
Proof. vm_compute. reflexivity. Qed.

Lemma getitem_returns_witness :
  getitem counter_randbelow 10%nat (five_samples mix_brighten_mix) 2 2%nat 0%nat
  = Returns (mkImage false (100, 100, 3)%nat [26], tt, no_instance_extras) 2%nat
  /\ dom no_instance_extras
     = ({["gt_joints"; "gt_bboxes"; "gt_areas"; "gt_is_crowd"]} : gset string).
Proof.
  split; [exact getitem_mix_brighten_mix|].
  destruct (getitem_returns counter_randbelow 10%nat (five_samples mix_brighten_mix) 2%nat
              2%nat 0%nat _ _ _ _ getitem_mix_brighten_mix)
    as (s0 & w0 & s1 & w1 & s2 & _ & _ & _ & _ & _ & _ & _ & _ & _ & Hdom & _).
  exact Hdom.
Defined.

Lemma getitem_terminates_witness :
  (2 <= 5)%nat
  /\ getitem counter_randbelow 10%nat (five_samples mix_brighten_mix) 5 2%nat 0%nat
     = getitem counter_randbelow 10%nat (five_samples mix_brighten_mix) 2 2%nat 0%nat
  /\ exists d0, forall d, (d0 <= d)%nat ->
       terminated (getitem counter_randbelow d (five_samples mix_brighten_mix) 5
                           2%nat 0%nat).
Proof.
  destruct (getitem_terminates counter_randbelow (five_samples mix_brighten_mix)
              10%nat 5%nat 2%nat 0%nat) as (_ & Hsame & Hdraws); [lia|].
  split; [lia|]. split; [exact Hsame|].
  exact (Hdraws counter_randbelow_in_range counter_every_value_comes_up).
Defined.

Lemma apply_transforms_composes_witness :
  Forall (fun t => plain t = true) [brighten]
  /\ apply_transforms counter_randbelow 10%nat (five_samples mix_brighten_mix) 2
                      (pixel_sample 3) ([mix 1] ++ [brighten]) 0%nat
     = (s' ← apply_transforms counter_randbelow 10%nat (five_samples mix_brighten_mix) 2
                              (pixel_sample 3) [mix 1];
        run_in_order [brighten] s') 0%nat.
Proof.
  assert (Hp : Forall (fun t => plain t = true) [brighten])
    by (repeat constructor).
  split; [exact Hp|].
  exact (proj1 (apply_transforms_composes counter_randbelow 10%nat
                  (five_samples mix_brighten_mix) 1%nat (pixel_sample 3)
                  [mix 1] [brighten] 0%nat Hp)).
Defined.

Example first_mix_iteration :
  loop_body counter_randbelow 10%nat (five_samples mix_brighten_mix)
            (apply_transforms counter_randbelow 10%nat (five_samples mix_brighten_mix) 1)
            (pixel_sample 3, []) (mix 1) 0%nat
  = Returns (pixel_sample 4, []) 1%nat.
Proof. reflexivity. Qed.

Lemma combining_transform_input_witness :
  plain (mix 1) = false
  /\ loop_body counter_randbelow 10%nat (five_samples mix_brighten_mix)
               (apply_transforms counter_randbelow 10%nat (five_samples mix_brighten_mix) 1)
               (pixel_sample 3, []) (mix 1) 0%nat
     = Returns (pixel_sample 4, []) 1%nat
  /\ exists l w1,
       Z.of_nat (length l) = additional_samples_count (mix 1)
       /\ call (mix 1) (set_additional_samples (pixel_sample 3) l) w1
          = Ok (pixel_sample 4, 1%nat).
Proof.
  split; [reflexivity|]. split; [exact first_mix_iteration|].
  destruct (combining_transform_input counter_randbelow 10%nat (five_samples mix_brighten_mix)
              _ _ _ _ _ _ _ _ (eq_refl : plain (mix 1) = false) first_mix_iteration)
    as (_ & l & w1 & Hlen & Hcall & _).
  exists l, w1. split; [exact Hlen | exact Hcall].
Defined.

Lemma negative_count_raises_witness :
  additional_samples_count (mix (-1)) < 0
  /\ loop_body counter_randbelow 10%nat (five_samples [mix (-1)])
               (apply_transforms counter_randbelow 10%nat (five_samples [mix (-1)]) 1)
               (pixel_sample 3, []) (mix (-1)) 0%nat
     = Raises ValueError.
Proof.
  split; [cbn; lia|].
  apply (negative_count_raises counter_randbelow 10%nat (five_samples [mix (-1)])).
  cbn; lia.
Defined.

Example draw_five_of_five :
  random_sample counter_randbelow 10%nat 5 5 0%nat = Returns [0; 1; 2; 3; 4]%nat 5%nat.
Proof. reflexivity. Qed.

Lemma random_sample_all_witness :
  randbelow_in_range counter_randbelow
  /\ exists idxs w',
       random_sample counter_randbelow 10%nat 5 (Z.of_nat 5) 0%nat = Returns idxs w'
       /\ idxs ≡ₚ seq 0 5.
Proof.
  split; [exact counter_randbelow_in_range|].
  exact (random_sample_all counter_randbelow 10%nat 5 0%nat
           counter_randbelow_in_range).
Defined.

Lemma collate_returns_iff_witness :
  (exists r, KeypointsCollate_call stack stack batch_ab = Ok r)
  /\ ~ (exists r, KeypointsCollate_call stack stack batch_ac = Ok r).
Proof.
  split.
  - apply (proj2 (collate_returns_iff stack stack batch_ab)).
    exists (1, 1, extras_a)%nat, [(2, 2, extras_b)%nat]. split; [reflexivity|].
    split; [|split; eexists; reflexivity].
    intros x k Hx Hk. apply elem_of_cons in Hx as [->|Hx]; [|by apply elem_of_nil in Hx].
    apply elem_of_dom. apply elem_of_dom in Hk. revert Hk.
    replace (dom (snd (2, 2, extras_b)%nat)) with (dom (snd (1, 1, extras_a)%nat));
      [done | vm_compute; reflexivity].
  - intros [r Hr]. rewrite collate_batch_ac in Hr. discriminate.
Defined.

Lemma collate_errors_witness :
  KeypointsCollate_call stack stack ([] : list (nat * nat * gmap string (list nat)))
  = Raise IndexError
  /\ transpose (map snd batch_ab) = Ok extras_ab
  /\ KeypointsCollate_call reject stack batch_ab = Raise TypeError
  /\ KeypointsCollate_call stack reject batch_ab = Raise TypeError.
Proof.
  assert (Htr : transpose (map snd batch_ab) = Ok extras_ab)
    by (vm_compute; reflexivity).
  split; [exact (proj1 (collate_errors stack stack []) eq_refl)|].
  split; [exact Htr|]. split.
  - exact (proj1 (proj2 (collate_errors reject stack batch_ab)) extras_ab TypeError
                 Htr eq_refl).
  - exact (proj1 (proj2 (proj2 (collate_errors stack reject batch_ab)))
                 extras_ab [1; 2]%nat TypeError Htr eq_refl eq_refl).
Defined.

Lemma transpose_round_trip_witness :
  transpose (map snd batch_ab) = Ok extras_ab
  /\ batch_ab !! 1%nat = Some (2, 2, extras_b)%nat
  /\ dom extras_b = dom extras_a
  /\ omap (fun col : list (list nat) => col !! 1%nat) extras_ab = extras_b.
Proof.
  assert (Htr : transpose (map snd batch_ab) = Ok extras_ab)
    by (vm_compute; reflexivity).
  assert (Hdom : dom extras_b = dom extras_a) by (vm_compute; reflexivity).
  split; [exact Htr|]. split; [reflexivity|]. split; [exact Hdom|].
  exact (proj2 (transpose_round_trip (1, 1, extras_a)%nat [(2, 2, extras_b)%nat]
                  extras_ab Htr 1%nat (2, 2, extras_b)%nat eq_refl) Hdom).
Defined.

End MoreExamples.
